(** * Element: the geometric core of a diagram element

    A shallow embedding of [src/dia/Element.mjs] (position, translate, size,
    resize, scale, fitEmbeds, rotate, angle, getBBox) and the properties the
    specification states about it.

    Conventions of the embedding.

    - A JavaScript number is an exact real number ([R]): the rounding of
      IEEE doubles is not represented, nor is NaN.
    - An element is a node of the embedding tree: its attributes and the
      cells that the graph resolves from its [embeds] attribute.  Whether the
      receiver is attached ([this.graph]) is a flag of the call; the cells
      reached through the graph are attached.
    - The options object is one JavaScript object handed down by reference:
      every operation takes the current options value and returns the value
      the object holds afterwards.
    - The attribute store ([set], [startBatch], [stopBatch], [transition]) is
      an external collaborator; each call is recorded, in order, in the list
      of events an operation returns. *)

From Stdlib Require Import Reals Lra Lia List String Bool ZArith.
Import ListNotations.
Open Scope R_scope.

(** ** JavaScript values *)

(** [a === b] on numbers. *)
Definition Reqb (a b : R) : bool :=
  if Req_dec_T a b then true else false.

(** [v || 0] for a numeric argument that may be omitted. *)
Definition or_zero (v : option R) : R :=
  match v with
  | Some n => n
  | None => 0
  end.

(** Truthiness of a property holding a string: absent and the empty string
    are falsy. *)
Definition truthy (s : option string) : bool :=
  match s with
  | Some s' => negb (String.eqb s' EmptyString)
  | None => false
  end.

(** [a || b] where [a] is an optional string and [b] a string. *)
Definition or_string (a : option string) (b : string) : option string :=
  if truthy a then a else Some b.

(** [a === b] between a property and a string. *)
Definition same_string (a : option string) (b : string) : bool :=
  match a with
  | Some s => String.eqb s b
  | None => false
  end.

(** [Math.floor]. *)
Definition floor (r : R) : Z := Int_part r.

(** Rounding towards zero, the integer quotient of [%]. *)
Definition trunc (r : R) : Z :=
  if Rle_dec 0 r then Int_part r else (- Int_part (- r))%Z.

(** [a % b] on numbers: the remainder has the sign of the dividend. *)
Definition js_rem (a b : R) : R := a - b * IZR (trunc (a / b)).

(** [Math.atan(num / den)].  A quotient by zero is an infinity in
    JavaScript, and the arc tangent of an infinity is a right angle.  The
    quotient 0 / 0 is NaN, which the real numbers do not have: the value
    given here for it stands for nothing, and the properties of [resize]
    below are stated for sizes that are not both zero. *)
Definition atan_div (num den : R) : R :=
  if Req_dec_T den 0 then
    if Rlt_dec 0 num then PI / 2
    else if Rlt_dec num 0 then - (PI / 2)
    else 0
  else atan (num / den).

(** ** Geometry kernel ([g]) *)

(** Modelled from the spec: normalizeAngle of the geometry kernel
    ([g/index.mjs] is not part of the sources), "angle normalization" into
    the half-open range [0, 360). *)
Definition normalizeAngle (a : R) : R := a - 360 * IZR (floor (a / 360)).

(** Modelled from the spec: toRad of the geometry kernel, "radians
    conversion". *)
Definition toRad (deg : R) : R := deg * PI / 180.

Module Point.

Record t : Type := mk { x : R; y : R }.

(** Modelled from the spec: Point.offset of the geometry kernel. *)
Definition offset (p : t) (dx dy : R) : t := mk (x p + dx) (y p + dy).

(** Modelled from the spec: Point.difference of the geometry kernel. *)
Definition difference (p q : t) : t := mk (x p - x q) (y p - y q).

(** Modelled from the spec: Point.rotate of the geometry kernel, "rotation
    of points around a center".  Screen coordinates (the y axis points
    down): a positive [angle] turns the point counter-clockwise on screen,
    so that [rotate c (- a)] is where an element rotated by [a] shows the
    point. *)
Definition rotate (p origin : t) (angle : R) : t :=
  let a := toRad (- angle) in
  mk (cos a * (x p - x origin) - sin a * (y p - y origin) + x origin)
     (sin a * (x p - x origin) + cos a * (y p - y origin) + y origin).

(** Modelled from the spec: Point.fromPolar of the geometry kernel, "polar
    point construction": the point at [distance] from [origin] in the
    direction [angle] (radians, counter-clockwise on screen). *)
Definition fromPolar (distance angle : R) (origin : t) : t :=
  mk (x origin + distance * cos angle) (y origin - distance * sin angle).

(** Modelled from the spec: Point.scale of the geometry kernel. *)
Definition scale (p : t) (sx sy : R) (origin : option t) : t :=
  let o := match origin with Some o => o | None => mk 0 0 end in
  mk (x o + sx * (x p - x o)) (y o + sy * (y p - y o)).

End Point.

Module Rect.

Record t : Type := mk { x : R; y : R; width : R; height : R }.

(** Modelled from the spec: the corners and the center of a rectangle of
    the geometry kernel; [corner] is the corner diagonally opposite to
    [origin]. *)
Definition origin (r : t) : Point.t := Point.mk (x r) (y r).
Definition corner (r : t) : Point.t := Point.mk (x r + width r) (y r + height r).
Definition topRight (r : t) : Point.t := Point.mk (x r + width r) (y r).
Definition bottomLeft (r : t) : Point.t := Point.mk (x r) (y r + height r).
Definition center (r : t) : Point.t :=
  Point.mk (x r + width r / 2) (y r + height r / 2).

(** Modelled from the spec: Rect.scale of the geometry kernel, the box
    "scaled by (sx, sy) about origin". *)
Definition scale (r : t) (sx sy : R) (o : option Point.t) : t :=
  let p := Point.scale (origin r) sx sy o in
  mk (Point.x p) (Point.y p) (width r * sx) (height r * sy).

(** Modelled from the spec: Rect.moveAndExpand of the geometry kernel. *)
Definition moveAndExpand (r d : t) : t :=
  mk (x r + x d) (y r + y d) (width r + width d) (height r + height d).

End Rect.

(** ** Data model *)

(** The plain object [{ width, height }] of the [size] attribute. *)
Module Size.
Record t : Type := mk { width : R; height : R }.
End Size.

(** The result of [normalizeSides(opt.padding)]. *)
Record Sides : Type := mkSides { top : R; right : R; bottom : R; left : R }.

(** An element: its id, its attributes as [this.get] reads them, and the
    cells its [embeds] attribute resolves to in the graph. *)
#[local] Unset Elimination Schemes.
Inductive Element : Type :=
  mkElement {
    id : string;
    get_position : Point.t;
    get_size : Size.t;
    get_angle : R;
    get_embeds : list Element
  }.
#[local] Set Elimination Schemes.

(** [this.set(attribute, value)] on the attributes. *)
Definition set_position (p : Point.t) (e : Element) : Element :=
  mkElement (id e) p (get_size e) (get_angle e) (get_embeds e).
Definition set_size (s : Size.t) (e : Element) : Element :=
  mkElement (id e) (get_position e) s (get_angle e) (get_embeds e).
Definition set_angle (a : R) (e : Element) : Element :=
  mkElement (id e) (get_position e) (get_size e) a (get_embeds e).
Definition set_embeds (cs : list Element) (e : Element) : Element :=
  mkElement (id e) (get_position e) (get_size e) (get_angle e) cs.

(** What [getParentCell()] finds: nothing, a link or an element. *)
Inductive Cell : Type :=
| CellLink
| CellElement (e : Element).

(** The value of [opt.transition] when it is truthy. *)
Record TransitionParams : Type :=
  mkTransitionParams { delay : option R; duration : option R }.

Inductive Transition : Type :=
| TransitionFlag
| TransitionObject (params : TransitionParams).

(** The options object. *)
Module Opt.

Record t : Type := mk {
  parentRelative : bool;
  deep : bool;
  translateBy : option string;
  restrictedArea : option Rect.t;
  tx : option R;
  ty : option R;
  transition : option Transition;
  direction : option string;
  absolute : bool;
  padding : Sides
}.

(** The object [{}]. *)
Definition empty : t :=
  mk false false None None None None None None false (mkSides 0 0 0 0).

Definition set_translateBy (v : option string) (o : t) : t :=
  mk (parentRelative o) (deep o) v (restrictedArea o) (tx o) (ty o)
     (transition o) (direction o) (absolute o) (padding o).
Definition set_tx (v : R) (o : t) : t :=
  mk (parentRelative o) (deep o) (translateBy o) (restrictedArea o) (Some v) (ty o)
     (transition o) (direction o) (absolute o) (padding o).
Definition set_ty (v : R) (o : t) : t :=
  mk (parentRelative o) (deep o) (translateBy o) (restrictedArea o) (tx o) (Some v)
     (transition o) (direction o) (absolute o) (padding o).
Definition set_transition (v : option Transition) (o : t) : t :=
  mk (parentRelative o) (deep o) (translateBy o) (restrictedArea o) (tx o) (ty o)
     v (direction o) (absolute o) (padding o).
Definition set_restrictedArea (v : option Rect.t) (o : t) : t :=
  mk (parentRelative o) (deep o) (translateBy o) v (tx o) (ty o)
     (transition o) (direction o) (absolute o) (padding o).
Definition set_direction (v : option string) (o : t) : t :=
  mk (parentRelative o) (deep o) (translateBy o) (restrictedArea o) (tx o) (ty o)
     (transition o) v (absolute o) (padding o).
Definition set_parentRelative (v : bool) (o : t) : t :=
  mk v (deep o) (translateBy o) (restrictedArea o) (tx o) (ty o)
     (transition o) (direction o) (absolute o) (padding o).

End Opt.

(** ** The attribute store *)

(** What a [set] call writes. *)
Inductive Change : Type :=
| ChangePosition (p : Point.t)
| ChangeSize (s : Size.t)
| ChangeAngle (a : R)
| ChangePositionAndSize (p : Point.t) (s : Size.t).

(** The calls an operation makes to the attribute store, each with the id
    of the cell it is made on.  A [SetAttr] is a call of [set], carrying
    the new value and the options as they are at that moment; a handler of
    the change sees these options. *)
Inductive Event : Type :=
| StartBatch (name : string) (cell : string)
| StopBatch (name : string) (cell : string)
| SetAttr (cell : string) (c : Change) (opt : Opt.t)
| StartTransition (cell : string) (path : string) (target : Point.t)
                  (params : TransitionParams).

(** The two ways a call fails: the explicit
    [throw new Error('Element must be part of a graph.')] and the
    [TypeError] of calling a property that is [undefined]. *)
Inductive Error : Type :=
| ElementMustBePartOfGraph
| TypeError.

(** The outcome of a call: the value it returns or the error it throws,
    with the options object and the events up to that point. *)
Inductive Result (A : Type) : Type :=
| Ok (a : A) (opt : Opt.t) (events : list Event)
| Throw (e : Error) (opt : Opt.t) (events : list Event).
Arguments Ok {A} a opt events.
Arguments Throw {A} e opt events.

Definition M (A : Type) : Type := Opt.t -> Result A.

Definition ret {A} (a : A) : M A := fun o => Ok a o [].

Definition bind {A B} (m : M A) (f : A -> M B) : M B :=
  fun o =>
    match m o with
    | Ok a o1 l1 =>
        match f a o1 with
        | Ok b o2 l2 => Ok b o2 (l1 ++ l2)
        | Throw e o2 l2 => Throw e o2 (l1 ++ l2)
        end
    | Throw e o1 l1 => Throw e o1 l1
    end.

Definition throw {A} (e : Error) : M A := fun o => Throw e o [].
Definition emit (ev : Event) : M unit := fun o => Ok tt o [ev].
Definition getOpt : M Opt.t := fun o => Ok o o [].

Declare Scope js_scope.
Delimit Scope js_scope with js.
Notation "x <- m ;; k" := (bind m (fun x => k))
  (at level 61, m at next level, right associativity) : js_scope.
Notation "m ;;; k" := (bind m (fun _ => k))
  (at level 61, right associativity) : js_scope.

(** ** The operations of [Element] *)

(** Pointwise concatenation of two lists of levels. *)
Fixpoint merge_levels (a b : list (list Element)) : list (list Element) :=
  match a, b with
  | [], _ => b
  | _, [] => a
  | la :: a', lb :: b' => (la ++ lb) :: merge_levels a' b'
  end.

(** The levels of the embedding tree below and including an element. *)
Fixpoint levels (e : Element) : list (list Element) :=
  [e] :: fold_right (fun c acc => merge_levels (levels c) acc) [] (get_embeds e).

(** [invoke(cells, method, ...)]: the method is called on each cell in
    turn, on the one options object. *)
Definition invoke (f : Element -> Opt.t -> Element * Opt.t * list Event) :
  list Element -> Opt.t -> list Element * Opt.t * list Event :=
  fix go (cells : list Element) (opt : Opt.t) :=
    match cells with
    | [] => ([], opt, [])
    | c :: cells' =>
        let '(c', opt1, l1) := f c opt in
        let '(cs', opt2, l2) := go cells' opt1 in
        (c' :: cs', opt2, l1 ++ l2)
    end.

(** [invoke(cells, method, opt)] for a method that may throw: the first
    error ends the loop. *)
Definition invoke_throwing (f : Element -> Opt.t -> Result Element) :
  list Element -> Opt.t -> Result (list Element) :=
  fix go (cells : list Element) (opt : Opt.t) :=
    match cells with
    | [] => Ok [] opt []
    | c :: cells' =>
        match f c opt with
        | Ok c' opt1 l1 =>
            match go cells' opt1 with
            | Ok cs' opt2 l2 => Ok (c' :: cs') opt2 (l1 ++ l2)
            | Throw e opt2 l2 => Throw e opt2 (l1 ++ l2)
            end
        | Throw e opt1 l1 => Throw e opt1 l1
        end
    end.

Section Graph.

(** The graph is an external collaborator: how it resolves the parent of
    an element and how it computes the bounding box of a list of cells
    are parameters of the development. *)
Variable getParentCell : Element -> option Cell.
Variable getCellsBBox : list Element -> Rect.t.

(** Modelled from the spec: Cell.getEmbeddedCells ([Cell.mjs] is not part
    of the sources), the embedded cells as the graph resolves them; an
    element that is not attached to a graph has none. *)
Definition getEmbeddedCells (graph : bool) (this : Element) : list Element :=
  if graph then get_embeds this else [].

(** Modelled from the spec: Cell.getEmbeddedCells with
    [{ deep: true, breadthFirst: true }], "every embedded descendant
    (breadth-first, non-recursive traversal)". *)
Definition getEmbeddedCells_deep (graph : bool) (this : Element) : list Element :=
  if graph then List.concat (tl (levels this)) else [].

(** The cells an operation has worked on are the objects the graph holds:
    they replace the embedded cells of an attached element. *)
Definition put_embeddedCells (graph : bool) (cells : list Element)
           (this : Element) : Element :=
  if graph then set_embeds cells this else this.

(** [getBBox(opt)], with [deep] the truthiness of [opt.deep]. *)
Definition getBBox (graph : bool) (this : Element) (deep : bool) : Rect.t :=
  if deep && graph then
    getCellsBBox (getEmbeddedCells_deep graph this ++ [this])
  else
    let position := get_position this in
    let size := get_size this in
    Rect.mk (Point.x position) (Point.y position)
            (Size.width size) (Size.height size).

(** The block [if (opt.restrictedArea && opt.translateBy === this.id)] of
    [translate]: the translation recalculated taking the restrictions into
    account, or the translation as it is. *)
Definition restricted (graph : bool) (this : Element) (tx ty : R)
           (opt : Opt.t) : R * R :=
  let position := get_position this in
  match Opt.restrictedArea opt with
  | Some ra =>
      if same_string (Opt.translateBy opt) (id this) then
        (* We are restricting the translation for the element itself
           only. We get the bounding box of the element including all its
           embeds. *)
        let bbox := getBBox graph this true in
        let dx := Point.x position - Rect.x bbox in
        let dy := Point.y position - Rect.y bbox in
        (* Find the maximal/minimal coordinates that the element can be
           translated while complies the restrictions. *)
        let x := Rmax (Rect.x ra + dx)
                      (Rmin (Rect.x ra + Rect.width ra + dx - Rect.width bbox)
                            (Point.x position + tx)) in
        let y := Rmax (Rect.y ra + dy)
                      (Rmin (Rect.y ra + Rect.height ra + dy - Rect.height bbox)
                            (Point.y position + ty)) in
        (x - Point.x position, y - Point.y position)
      else (tx, ty)
  | None => (tx, ty)
  end.

(** [translate(tx, ty, opt)].  The embedded cells are those of
    [getEmbeddedCells], written out so that the recursion is seen to go
    down the embedding tree ([translate_embedded] below). *)
Fixpoint translate (graph : bool) (this : Element) (tx ty : option R)
         (opt : Opt.t) {struct this} : Element * Opt.t * list Event :=
  let tx := or_zero tx in
  let ty := or_zero ty in
  if Reqb tx 0 && Reqb ty 0 then
    (* Like nothing has happened. *)
    (this, opt, [])
  else
    (* Pass the initiator of the translation. *)
    let opt := Opt.set_translateBy (or_string (Opt.translateBy opt) (id this)) opt in
    let position := get_position this in
    let '(tx, ty) := restricted graph this tx ty opt in
    let translatedPosition :=
      Point.mk (Point.x position + tx) (Point.y position + ty) in
    (* To find out by how much an element was translated in event
       'change:position' handlers. *)
    let opt := Opt.set_ty ty (Opt.set_tx tx opt) in
    match Opt.transition opt with
    | Some tr =>
        let params :=
          match tr with
          | TransitionObject p => p
          | TransitionFlag => mkTransitionParams None None
          end in
        let opt := Opt.set_transition (Some (TransitionObject params)) opt in
        let '(cells, opt', events) :=
          if graph then
            invoke (fun c => translate true c (Some tx) (Some ty))
                   (get_embeds this) opt
          else
            invoke (fun c => translate true c (Some tx) (Some ty)) [] opt in
        (put_embeddedCells graph cells this, opt',
         StartTransition (id this) "position" translatedPosition params :: events)
    | None =>
        let '(cells, opt', events) :=
          if graph then
            invoke (fun c => translate true c (Some tx) (Some ty))
                   (get_embeds this) opt
          else
            invoke (fun c => translate true c (Some tx) (Some ty)) [] opt in
        (put_embeddedCells graph cells (set_position translatedPosition this), opt',
         StartBatch "translate" (id this)
           :: SetAttr (id this) (ChangePosition translatedPosition) opt
           :: events ++ [StopBatch "translate" (id this)])
    end.

(** [invoke(this.getEmbeddedCells(), 'translate', tx, ty, opt)]. *)
Definition translate_embedded (graph : bool) (this : Element) (tx ty : R)
           (opt : Opt.t) : list Element * Opt.t * list Event :=
  invoke (fun c => translate true c (Some tx) (Some ty))
         (getEmbeddedCells graph this) opt.

(** [this.set(attribute, value, opt)]: the attribute is written, and the
    call is recorded with the options it was made with; what the store
    notifies of it (nothing, for a value that does not change) is the
    affair of the store. *)
Definition apply_change (c : Change) (this : Element) : Element :=
  match c with
  | ChangePosition p => set_position p this
  | ChangeSize s => set_size s this
  | ChangeAngle a => set_angle a this
  | ChangePositionAndSize p s => set_size s (set_position p this)
  end.

Definition set (this : Element) (c : Change) : M Element :=
  fun opt => Ok (apply_change c this) opt [SetAttr (id this) c opt].

(** The first lines of [position(x, y, opt)], common to the getter and
    the setter: with [opt.parentRelative], the position of the parent, or
    the origin when the parent is a link or there is none. *)
Definition parentPosition (graph : bool) (this : Element) : M (option Point.t) :=
  (opt <- getOpt ;;
   if Opt.parentRelative opt then
     (* Getting the parent's position requires the collection. *)
     if negb graph then throw ElementMustBePartOfGraph
     else
       ret (Some match getParentCell this with
                 | Some (CellElement parent) => get_position parent
                 | Some CellLink | None => Point.mk 0 0
                 end)
   else ret None)%js.

(** [position(x, y, opt)] with numbers: the setter. *)
Definition position_set (graph : bool) (this : Element) (x y : R) : M Element :=
  (parent <- parentPosition graph this ;;
   opt <- getOpt ;;
   let '(x, y) :=
     match parent with
     | Some parentPosition => (x + Point.x parentPosition, y + Point.y parentPosition)
     | None => (x, y)
     end in
   if Opt.deep opt then
     let currentPosition := get_position this in
     fun o =>
       let '(this', o', events) :=
         translate graph this (Some (x - Point.x currentPosition))
                   (Some (y - Point.y currentPosition)) o in
       Ok this' o' events
   else
     set this (ChangePosition (Point.mk x y)))%js.

(** [position(opt)] and [position()]: the getter returns a point. *)
Definition position_get (graph : bool) (this : Element) : M Point.t :=
  (parent <- parentPosition graph this ;;
   let elementPosition := get_position this in
   ret match parent with
       | Some parentPosition => Point.difference elementPosition parentPosition
       | None => elementPosition
       end)%js.

(** The table of [resize]: the quadrant of a direction. *)
Definition quadrantOf (direction : string) : option Z :=
  if String.eqb direction "top-right" then Some 0%Z
  else if String.eqb direction "right" then Some 0%Z
  else if String.eqb direction "top-left" then Some 1%Z
  else if String.eqb direction "top" then Some 1%Z
  else if String.eqb direction "bottom-left" then Some 2%Z
  else if String.eqb direction "left" then Some 2%Z
  else if String.eqb direction "bottom-right" then Some 3%Z
  else if String.eqb direction "bottom" then Some 3%Z
  else None.

(** [bbox[['bottomLeft', 'corner', 'topRight', 'origin'][quadrant]]]: the
    method of the bounding box that a quadrant names, if any. *)
Definition cornerOf (bbox : Rect.t) (quadrant : Z) : option Point.t :=
  if Z.eqb quadrant 0 then Some (Rect.bottomLeft bbox)
  else if Z.eqb quadrant 1 then Some (Rect.corner bbox)
  else if Z.eqb quadrant 2 then Some (Rect.topRight bbox)
  else if Z.eqb quadrant 3 then Some (Rect.origin bbox)
  else None.

(** The fixed point of [resize]: the corner that the quadrant names, when
    the quadrant is a number and names one. *)
Definition fixedPointOf (bbox : Rect.t) (quadrant : option Z) : option (Z * Point.t) :=
  match quadrant with
  | Some q =>
      match cornerOf bbox q with
      | Some fixedPoint => Some (q, fixedPoint)
      | None => None
      end
  | None => None
  end.

(** The [switch] of [resize]: a horizontal direction keeps the height, a
    vertical one the width. *)
Definition resizedSize (direction : string) (currentSize : Size.t)
           (width height : R) : R * R :=
  if String.eqb direction "left" || String.eqb direction "right" then
    (width, Size.height currentSize)
  else if String.eqb direction "top" || String.eqb direction "bottom" then
    (Size.width currentSize, height)
  else (width, height).

(** The quadrant of [resize] after [if (opt.absolute) { ... }]; it is
    [None] when the table has no entry for the direction. *)
Definition resizeQuadrant (direction : string) (absolute : bool)
           (angle : R) : option Z :=
  match quadrantOf direction with
  | Some quadrant =>
      if absolute then
        (* We are taking the element's rotation into account *)
        Some (Z.rem (quadrant + floor ((angle + 45) / 90)) 4)
      else Some quadrant
  | None => None
  end.

(** [resize(width, height, opt)]. *)
Definition resize (graph : bool) (this : Element) (width height : R) : M Element :=
  (emit (StartBatch "resize" (id this)) ;;;
   opt <- getOpt ;;
   if truthy (Opt.direction opt) then
     let direction := match Opt.direction opt with Some d => d | None => EmptyString end in
     let currentSize := get_size this in
     let '(width, height) := resizedSize direction currentSize width height in
     (* Get the angle and clamp its value between 0 and 360 degrees. *)
     let angle := normalizeAngle (get_angle this) in
     let quadrant := resizeQuadrant direction (Opt.absolute opt) angle in
     (* This is a rectangle in size of the un-rotated element. *)
     let bbox := getBBox graph this false in
     (* Pick the corner point on the element, which meant to stay on its
        place before and after the rotation. *)
     match fixedPointOf bbox quadrant with
     | Some (quadrant, fixedPoint) =>
         let imageFixedPoint :=
           Point.rotate fixedPoint (Rect.center bbox) (- angle) in
         let radius := sqrt (width * width + height * height) / 2 in
         let alpha := IZR quadrant * PI / 2 in
         let alpha :=
           alpha + (if Z.eqb (Z.rem quadrant 2) 0
                    then atan_div height width else atan_div width height) in
         let alpha := alpha - toRad angle in
         let center := Point.fromPolar radius alpha imageFixedPoint in
         let origin := Point.offset center (width / -2) (height / -2) in
         (* Resize the element (before re-positioning it). *)
         this <- set this (ChangeSize (Size.mk width height)) ;;
         (* Finally, re-position the element. *)
         this <- position_set graph this (Point.x origin) (Point.y origin) ;;
         emit (StopBatch "resize" (id this)) ;;;
         ret this
     | None =>
         (* bbox[undefined] is not a function *)
         throw TypeError
     end
   else
     (* Resize the element. *)
     this <- set this (ChangeSize (Size.mk width height)) ;;
     emit (StopBatch "resize" (id this)) ;;;
     ret this)%js.

(** [size()]: the getter. *)
Definition size_get (this : Element) : Size.t :=
  let currentSize := get_size this in
  Size.mk (Size.width currentSize) (Size.height currentSize).

(** [size(size, opt)] with an object whose fields may be missing, and
    [size(width, height, opt)] with numbers: both end in [resize]. *)
Definition size_object (graph : bool) (this : Element)
           (width height : option R) : M Element :=
  let currentSize := get_size this in
  let height' := match height with Some h => h | None => Size.height currentSize end in
  let width' := match width with Some w => w | None => Size.width currentSize end in
  resize graph this width' height'.

Definition size_set (graph : bool) (this : Element) (width height : R) : M Element :=
  resize graph this width height.

(** [scale(sx, sy, origin, opt)]. *)
Definition scale (graph : bool) (this : Element) (sx sy : R)
           (origin : option Point.t) : M Element :=
  (let scaledBBox := Rect.scale (getBBox graph this false) sx sy origin in
   emit (StartBatch "scale" (id this)) ;;;
   this <- position_set graph this (Rect.x scaledBBox) (Rect.y scaledBBox) ;;
   this <- resize graph this (Rect.width scaledBBox) (Rect.height scaledBBox) ;;
   emit (StopBatch "scale" (id this)) ;;;
   ret this)%js.

(** [rotate(angle, absolute, origin, opt)] without an origin. *)
Definition rotate_about_center (this : Element) (angle : R) (absolute : bool) : M Element :=
  set this (ChangeAngle (if absolute then angle
                         else js_rem (get_angle this + angle) 360)).

(** [rotate(angle, absolute, origin, opt)]. *)
Definition rotate (graph : bool) (this : Element) (angle : R) (absolute : bool)
           (origin : option Point.t) : M Element :=
  (match origin with
   | Some origin =>
       let center := Rect.center (getBBox graph this false) in
       let size := get_size this in
       let position := get_position this in
       let center := Point.rotate center origin (get_angle this - angle) in
       let dx := Point.x center - Size.width size / 2 - Point.x position in
       let dy := Point.y center - Size.height size / 2 - Point.y position in
       emit (StartBatch "rotate" (id this)) ;;;
       this <- position_set graph this (Point.x position + dx) (Point.y position + dy) ;;
       this <- rotate_about_center this angle absolute ;;
       emit (StopBatch "rotate" (id this)) ;;;
       ret this
   | None => rotate_about_center this angle absolute
   end)%js.

(** [angle()]. *)
Definition angle (this : Element) : R := normalizeAngle (get_angle this).

(** [fitEmbeds(opt)].  Past the test of [this.graph] the element is
    attached and its embedded cells are those the graph resolves. *)
Fixpoint fitEmbeds (graph : bool) (this : Element) (opt : Opt.t)
         {struct this} : Result Element :=
  (* Getting the children's size and position requires the collection. *)
  if negb graph then Throw ElementMustBePartOfGraph opt []
  else
    let embeddedCells := get_embeds this in
    match embeddedCells with
    | _ :: _ =>
        let fitted :=
          if Opt.deep opt then
            (* Recursively apply fitEmbeds on all embeds first. *)
            invoke_throwing (fitEmbeds true) embeddedCells opt
          else Ok embeddedCells opt [] in
        match fitted with
        | Ok embeddedCells opt events =>
            (* Compute cell's size and position based on the children
               bbox and given padding. *)
            let bbox := getCellsBBox embeddedCells in
            let padding := Opt.padding opt in
            let bbox :=
              Rect.moveAndExpand bbox
                (Rect.mk (- left padding) (- top padding)
                         (right padding + left padding)
                         (bottom padding + top padding)) in
            (* Set new element dimensions finally. *)
            let change :=
              ChangePositionAndSize
                (Point.mk (Rect.x bbox) (Rect.y bbox))
                (Size.mk (Rect.width bbox) (Rect.height bbox)) in
            Ok (apply_change change (set_embeds embeddedCells this)) opt
               (StartBatch "fit-embeds" (id this)
                  :: events
                  ++ [SetAttr (id this) change opt;
                      StopBatch "fit-embeds" (id this)])
        | Throw e opt events =>
            Throw e opt (StartBatch "fit-embeds" (id this) :: events)
        end
    | [] => Ok this opt []
    end.

End Graph.

(** ** The graph of the examples *)

(** Modelled from the spec: Graph.getCellsBBox ([Graph.mjs] is not part of
    the sources), "the union of this box and every embedded descendant's own
    box"; the box of no cell is taken at the origin with no extent. *)
Definition union (a b : Rect.t) : Rect.t :=
  let x0 := Rmin (Rect.x a) (Rect.x b) in
  let y0 := Rmin (Rect.y a) (Rect.y b) in
  Rect.mk x0 y0
          (Rmax (Rect.x a + Rect.width a) (Rect.x b + Rect.width b) - x0)
          (Rmax (Rect.y a + Rect.height a) (Rect.y b + Rect.height b) - y0).

Definition ownBBox (e : Element) : Rect.t :=
  Rect.mk (Point.x (get_position e)) (Point.y (get_position e))
          (Size.width (get_size e)) (Size.height (get_size e)).

Definition unionBBox (cells : list Element) : Rect.t :=
  match cells with
  | [] => Rect.mk 0 0 0 0
  | c :: cells' => fold_left (fun memo c' => union memo (ownBBox c')) cells' (ownBBox c)
  end.

(** A graph in which no cell has a parent. *)
Definition noParent (e : Element) : option Cell := None.

(** ** The embedding tree *)

(** All cells of the tree of an element, the element first. *)
Fixpoint cells_of (e : Element) : list Element :=
  e :: flat_map cells_of (get_embeds e).

(** The embedded subtree of an element as the graph resolves it. *)
Definition subtree (graph : bool) (e : Element) : list Element :=
  flat_map cells_of (getEmbeddedCells graph e).

(** A position moved by a delta. *)
Definition moved_point (tx ty : R) (p : Point.t) : Point.t :=
  Point.mk (Point.x p + tx) (Point.y p + ty).

(** An element whose whole tree is moved by a delta. *)
Fixpoint moved (tx ty : R) (e : Element) : Element :=
  mkElement (id e) (moved_point tx ty (get_position e)) (get_size e) (get_angle e)
            (map (moved tx ty) (get_embeds e)).

(** The options once [translate] has recorded the initiator. *)
Definition initiated (this : Element) (opt : Opt.t) : Opt.t :=
  Opt.set_translateBy (or_string (Opt.translateBy opt) (id this)) opt.

(** The options once [translate] has recorded the translation. *)
Definition recorded (tx ty : R) (opt : Opt.t) : Opt.t :=
  Opt.set_ty ty (Opt.set_tx tx opt).

(** The parameters of the transition that [translate] starts. *)
Definition transitionParams (tr : Transition) : TransitionParams :=
  match tr with
  | TransitionObject p => p
  | TransitionFlag => mkTransitionParams None None
  end.


(** [clamp(v, lo, hi)]: [v] brought between [lo] and [hi], [lo]
    prevailing. *)
Definition clamp (v lo hi : R) : R := Rmax lo (Rmin hi v).

(** ** Elements of the examples *)

Definition leaf : Element :=
  mkElement "leaf" (Point.mk 2 3) (Size.mk 4 4) 0 [].

(** An element that embeds [leaf]. *)
Definition box : Element :=
  mkElement "box" (Point.mk 0 0) (Size.mk 10 10) 0 [leaf].

Definition square : Element :=
  mkElement "square" (Point.mk 0 0) (Size.mk 10 10) 0 [].

(** An element to the right of [area]. *)
Definition outside : Element :=
  mkElement "outside" (Point.mk 20 0) (Size.mk 10 10) 0 [].

Definition area : Rect.t := Rect.mk 0 0 15 15.

(** ** Statements about [translate] *)

Section Statements.

Variable getCellsBBox : list Element -> Rect.t.

(** The position between the bounds of a restricted area: with [bbox] the
    deep bounding box and [dx = position.x - bbox.x],
    [clamp(position.x + tx, ra.x + dx, ra.x + ra.width + dx - bbox.width)],
    and the same for y. *)
Definition clamped_position (graph : bool) (this : Element) (tx ty : R)
           (ra : Rect.t) : Point.t :=
  let bbox := getBBox getCellsBBox graph this true in
  let position := get_position this in
  let dx := Point.x position - Rect.x bbox in
  let dy := Point.y position - Rect.y bbox in
  Point.mk (clamp (Point.x position + tx) (Rect.x ra + dx)
                  (Rect.x ra + Rect.width ra + dx - Rect.width bbox))
           (clamp (Point.y position + ty) (Rect.y ra + dy)
                  (Rect.y ra + Rect.height ra + dy - Rect.height bbox)).

(** [translate(tx, ty, opt)] gives the element the position [target]: it
    writes it, or with [opt.transition] it starts the transition to it. *)
Definition translate_reaches (graph : bool) (this : Element) (tx ty : R)
           (opt : Opt.t) (target : Point.t) : Prop :=
  let '(this', _, events) :=
    translate getCellsBBox graph this (Some tx) (Some ty) opt in
  match Opt.transition opt with
  | Some tr =>
      exists rest,
        events = StartTransition (id this) "position" target (transitionParams tr) :: rest
  | None => get_position this' = target
  end.


End Statements.

(** ** Statements about [resize] and [rotate] *)

Section MoreStatements.

Variable getParentCell : Element -> option Cell.
Variable getCellsBBox : list Element -> Rect.t.

(** [resize(width, height, opt)] takes the unanchored path: it overwrites
    the size, within its batch, and raises no error. *)
Definition resizes_unanchored (graph : bool) (this : Element)
           (width height : R) (opt : Opt.t) : Prop :=
  resize getParentCell getCellsBBox graph this width height opt
  = Ok (set_size (Size.mk width height) this) opt
       [StartBatch "resize" (id this);
        SetAttr (id this) (ChangeSize (Size.mk width height)) opt;
        StopBatch "resize" (id this)].

(** After [rotate(angle, absolute)] the angle that is stored lies in the
    range from 0 to 360, 360 excluded. *)
Definition stores_normalized (graph : bool) (this : Element) (a : R)
           (absolute : bool) (opt : Opt.t) : Prop :=
  match rotate getParentCell getCellsBBox graph this a absolute None opt with
  | Ok this' _ _ => 0 <= get_angle this' < 360
  | Throw _ _ _ => False
  end.


End MoreStatements.

(** A call made with the options [opt] on an element fails with the explicit
    error only if the element is not attached to a graph and
    [opt.parentRelative] is set; when it returns, [opt.parentRelative] is as
    it was. *)
Definition fails_only_unattached {A : Type} (graph : bool) (opt : Opt.t)
           (r : Result A) : Prop :=
  match r with
  | Throw ElementMustBePartOfGraph _ _ =>
      graph = false /\ Opt.parentRelative opt = true
  | Throw TypeError _ _ => True
  | Ok _ opt' _ => Opt.parentRelative opt' = Opt.parentRelative opt
  end.

(** ** The point of a connected link *)

(** What [link.get(endType)] holds for an end of a link: the port it names,
    if any. *)
Record LinkEnd : Type := mkLinkEnd { port : option string }.

Section Ports.

(** The port subsystem ([ports.mjs]) is an external collaborator: the group
    of a port and the positions that the layout of a group gives to its
    ports are parameters. *)
Variable getCellsBBox : list Element -> Rect.t.
Variable portProp : Element -> string -> option string.
Variable getPortsPositions : Element -> option string -> string -> Point.t.

(** [getPointFromConnectedLink(link, endType)], with [endDef] the value of
    [link.get(endType)]. *)
Definition getPointFromConnectedLink (graph : bool) (this : Element)
           (endDef : option LinkEnd) : Point.t :=
  (* Center of the model *)
  let bbox := getBBox getCellsBBox graph this false in
  let center := Rect.center bbox in
  (* Center of a port *)
  match endDef with
  | None => center
  | Some endDef =>
      if truthy (port endDef) then
        let portId := match port endDef with Some p => p | None => EmptyString end in
        let portGroup := portProp this portId in
        let portsPositions := getPortsPositions this portGroup in
        let portCenter :=
          Point.offset (portsPositions portId)
                       (Point.x (Rect.origin bbox)) (Point.y (Rect.origin bbox)) in
        let angle := angle this in
        if Reqb angle 0 then portCenter
        else Point.rotate portCenter center (- angle)
      else center
  end.

End Ports.

(** ** Statements about what the operations keep *)

(** What [translate] has no business with: an element without its
    positions. *)
#[local] Unset Elimination Schemes.
Inductive Shape : Type :=
  mkShape (i : string) (s : Size.t) (a : R) (cells : list Shape).
#[local] Set Elimination Schemes.

Fixpoint shape (e : Element) : Shape :=
  mkShape (id e) (get_size e) (get_angle e) (map shape (get_embeds e)).

(** The element that [translate] returns when nothing restricts it: the
    position is moved, and so is the tree of every embedded cell that the
    graph resolves. *)
Definition translated (graph : bool) (tx ty : R) (this : Element) : Element :=
  put_embeddedCells graph (map (moved tx ty) (get_embeds this))
                    (set_position (moved_point tx ty (get_position this)) this).

(** The batches of a list of events are well nested: every [stopBatch]
    closes the batch that was started last, by name and cell, and in the
    end the batches in [open] and those started are all closed. *)
Fixpoint well_nested (open : list (string * string)) (events : list Event) : bool :=
  match events with
  | [] => match open with [] => true | _ :: _ => false end
  | StartBatch name cell :: rest => well_nested ((name, cell) :: open) rest
  | StopBatch name cell :: rest =>
      match open with
      | (name', cell') :: open' =>
          String.eqb name name' && String.eqb cell cell' && well_nested open' rest
      | [] => false
      end
  | SetAttr _ _ _ :: rest => well_nested open rest
  | StartTransition _ _ _ _ :: rest => well_nested open rest
  end.

(** A list of events that closes the batches it starts, whatever comes
    before and after. *)
Definition closes_batches (events : list Event) : Prop :=
  forall open rest, well_nested open (events ++ rest) = well_nested open rest.

(** The events that write nothing and start no batch. *)
Definition isStartTransition (ev : Event) : bool :=
  match ev with
  | StartTransition _ _ _ _ => true
  | _ => false
  end.

(** The box of an element, moved by a delta, lies within an area, side by
    side. *)
Definition left_of_box_within (ra bbox : Rect.t) (dx : R) : Prop :=
  Rect.x ra <= Rect.x bbox + dx.
Definition right_of_box_within (ra bbox : Rect.t) (dx : R) : Prop :=
  Rect.x bbox + dx + Rect.width bbox <= Rect.x ra + Rect.width ra.
Definition top_of_box_within (ra bbox : Rect.t) (dy : R) : Prop :=
  Rect.y ra <= Rect.y bbox + dy.
Definition bottom_of_box_within (ra bbox : Rect.t) (dy : R) : Prop :=
  Rect.y bbox + dy + Rect.height bbox <= Rect.y ra + Rect.height ra.

(** ** Proof steps *)


(** * Properties *)

(** Structural induction on the embedding tree. *)
Lemma Element_ind (P : Element -> Prop) :
  (forall i p s a cs, Forall P cs -> P (mkElement i p s a cs)) ->
  forall e, P e.
Proof.
  intros step. fix IH 1. intros [i p s a cs]. apply step.
  induction cs as [|c cs IHcs]; constructor; [apply IH | exact IHcs].
Qed.

(** ** Numbers *)

Lemma Reqb_true (a b : R) : Reqb a b = true <-> a = b.
Proof. unfold Reqb. destruct (Req_dec_T a b); split; congruence. Qed.

Lemma Reqb_false (a b : R) : Reqb a b = false <-> a <> b.
Proof. unfold Reqb. destruct (Req_dec_T a b); split; congruence. Qed.

Lemma Reqb_refl (a : R) : Reqb a a = true.
Proof. now apply Reqb_true. Qed.

Lemma nonzero_test (tx ty : R) :
  tx <> 0 \/ ty <> 0 -> Reqb tx 0 && Reqb ty 0 = false.
Proof.
  intros [H | H]; apply Reqb_false in H; rewrite H;
    [reflexivity | apply andb_false_r].
Qed.


(** ** The equations of [translate] *)

Section TranslateEquations.

Variable getCellsBBox : list Element -> Rect.t.

Lemma translate_zero graph this tx ty opt :
  or_zero tx = 0 -> or_zero ty = 0 ->
  translate getCellsBBox graph this tx ty opt = (this, opt, []).
Proof.
  intros Hx Hy. destruct this as [i p s a cs]. simpl.
  rewrite Hx, Hy, Reqb_refl. reflexivity.
Qed.

Lemma translate_set graph this tx ty opt :
  tx <> 0 \/ ty <> 0 ->
  Opt.transition opt = None ->
  translate getCellsBBox graph this (Some tx) (Some ty) opt =
  let opt0 := initiated this opt in
  let '(dx, dy) := restricted getCellsBBox graph this tx ty opt0 in
  let target := moved_point dx dy (get_position this) in
  let opt1 := recorded dx dy opt0 in
  let '(cells, opt', events) := translate_embedded getCellsBBox graph this dx dy opt1 in
  (put_embeddedCells graph cells (set_position target this), opt',
   StartBatch "translate" (id this)
     :: SetAttr (id this) (ChangePosition target) opt1
     :: events ++ [StopBatch "translate" (id this)]).
Proof.
  intros Hnz Htr. destruct this as [i p s a cs].
  unfold translate_embedded, getEmbeddedCells, initiated, recorded.
  cbn [translate or_zero]. rewrite (nonzero_test _ _ Hnz).
  cbn [id get_position get_embeds].
  destruct (restricted _ _ _ _ _ _) as [dx dy].
  cbn [Opt.transition Opt.set_ty Opt.set_tx Opt.set_translateBy].
  rewrite Htr. destruct graph; reflexivity.
Qed.

Lemma translate_transition graph this tx ty opt tr :
  tx <> 0 \/ ty <> 0 ->
  Opt.transition opt = Some tr ->
  translate getCellsBBox graph this (Some tx) (Some ty) opt =
  let opt0 := initiated this opt in
  let '(dx, dy) := restricted getCellsBBox graph this tx ty opt0 in
  let target := moved_point dx dy (get_position this) in
  let params := transitionParams tr in
  let opt1 := Opt.set_transition (Some (TransitionObject params))
                                 (recorded dx dy opt0) in
  let '(cells, opt', events) := translate_embedded getCellsBBox graph this dx dy opt1 in
  (put_embeddedCells graph cells this, opt',
   StartTransition (id this) "position" target params :: events).
Proof.
  intros Hnz Htr. destruct this as [i p s a cs].
  unfold translate_embedded, getEmbeddedCells, initiated, recorded.
  cbn [translate or_zero]. rewrite (nonzero_test _ _ Hnz).
  cbn [id get_position get_embeds].
  destruct (restricted _ _ _ _ _ _) as [dx dy].
  cbn [Opt.transition Opt.set_ty Opt.set_tx Opt.set_translateBy].
  rewrite Htr. destruct graph; reflexivity.
Qed.

End TranslateEquations.

(** ** Calls on the embedded cells *)

Lemma invoke_map (f : Element -> Opt.t -> Element * Opt.t * list Event)
      (g : Element -> Element) (I : Opt.t -> Prop) (cells : list Element) :
  Forall (fun c => forall opt, I opt ->
            exists opt' events, f c opt = (g c, opt', events) /\ I opt') cells ->
  forall opt, I opt ->
  exists opt' events, invoke f cells opt = (map g cells, opt', events) /\ I opt'.
Proof.
  induction 1 as [|c cs Hc _ IH]; intros opt HI; simpl.
  - now exists opt, [].
  - destruct (Hc opt HI) as (opt1 & l1 & -> & HI1).
    destruct (IH opt1 HI1) as (opt2 & l2 & -> & HI2).
    now exists opt2, (l1 ++ l2).
Qed.




Lemma set_translateBy_same (o : Opt.t) :
  Opt.set_translateBy (Opt.translateBy o) o = o.
Proof. now destruct o. Qed.

Lemma initiated_truthy (this : Element) (opt : Opt.t) :
  truthy (Opt.translateBy opt) = true -> initiated this opt = opt.
Proof.
  intros H. unfold initiated, or_string. rewrite H. apply set_translateBy_same.
Qed.



Lemma cells_of_moved (tx ty : R) (e : Element) :
  cells_of (moved tx ty e) = map (moved tx ty) (cells_of e).
Proof.
  induction e as [i p s a cs IH] using Element_ind. simpl. f_equal.
  induction IH as [|c cs' Hc _ IHcs]; simpl; [reflexivity|].
  rewrite map_app, Hc, IHcs. reflexivity.
Qed.


Lemma same_string_false (a : option string) (s : string) :
  a <> Some s -> same_string a s = false.
Proof.
  destruct a as [t|]; simpl; [|reflexivity].
  intros H. apply String.eqb_neq. congruence.
Qed.

Lemma same_string_initiated (this : Element) (opt : Opt.t) :
  truthy (Opt.translateBy opt) = false \/ Opt.translateBy opt = Some (id this) ->
  same_string (Opt.translateBy (initiated this opt)) (id this) = true.
Proof.
  unfold initiated, or_string. destruct opt as [pr dp tb ra ox oy tr dr ab pd].
  cbn [Opt.translateBy Opt.set_translateBy].
  intros [H | H].
  - rewrite H. apply String.eqb_refl.
  - subst tb. destruct (truthy (Some (id this))); apply String.eqb_refl.
Qed.

Section TranslateTree.

Variable getCellsBBox : list Element -> Rect.t.

(** Without a restricted area the block of the restriction does nothing. *)
Lemma restricted_none graph this tx ty opt :
  Opt.restrictedArea opt = None ->
  restricted getCellsBBox graph this tx ty opt = (tx, ty).
Proof. unfold restricted. now intros ->. Qed.

(** Nor does it when the element is not the initiator. *)
Lemma restricted_other graph this tx ty opt :
  same_string (Opt.translateBy opt) (id this) = false ->
  restricted getCellsBBox graph this tx ty opt = (tx, ty).
Proof.
  unfold restricted. intros ->. now destruct (Opt.restrictedArea opt).
Qed.

(** An embedded cell that is translated without a restricted area and
    without a transition is moved with its whole tree. *)
Lemma translate_moves (tx ty : R) :
  tx <> 0 \/ ty <> 0 ->
  forall c opt,
    Opt.restrictedArea opt = None /\ Opt.transition opt = None ->
    exists opt' events,
      translate getCellsBBox true c (Some tx) (Some ty) opt
      = (moved tx ty c, opt', events)
      /\ (Opt.restrictedArea opt' = None /\ Opt.transition opt' = None).
Proof.
  intros Hnz c. induction c as [i p s a cs IH] using Element_ind.
  intros opt [Hra Htr].
  rewrite (translate_set _ _ _ _ _ _ Hnz Htr). cbv zeta.
  rewrite restricted_none by (destruct opt; exact Hra).
  unfold translate_embedded, getEmbeddedCells. cbn [get_embeds].
  destruct (invoke_map (fun c => translate getCellsBBox true c (Some tx) (Some ty))
              (moved tx ty)
              (fun o => Opt.restrictedArea o = None /\ Opt.transition o = None)
              _ IH (recorded tx ty (initiated (mkElement i p s a cs) opt)))
    as (opt' & events & -> & HI).
  - destruct opt; split; [exact Hra | exact Htr].
  - eexists _, _. split; [reflexivity | exact HI].
Qed.

End TranslateTree.


Section TranslateOptions.

Variable getCellsBBox : list Element -> Rect.t.



End TranslateOptions.

(** ** Translation *)

Lemma get_position_put graph cells this :
  get_position (put_embeddedCells graph cells this) = get_position this.
Proof. now destruct graph. Qed.

Lemma flat_map_cells_moved (tx ty : R) (cells : list Element) :
  flat_map cells_of (map (moved tx ty) cells)
  = map (moved tx ty) (flat_map cells_of cells).
Proof.
  induction cells as [|c cs IH]; simpl; [reflexivity|].
  now rewrite map_app, cells_of_moved, IH.
Qed.

Lemma moved_Forall2 (tx ty : R) (cells : list Element) :
  Forall2 (fun d d' => id d' = id d
                       /\ get_position d' = moved_point tx ty (get_position d))
          cells (map (moved tx ty) cells).
Proof.
  induction cells as [|c cs IH]; simpl; constructor; [|exact IH].
  now destruct c.
Qed.

Section Translation.

Variable getCellsBBox : list Element -> Rect.t.

(** Translating an element without a restricted area and without a
    transition moves its position and every cell of its subtree. *)
Lemma translate_moved graph this tx ty opt :
  tx <> 0 \/ ty <> 0 ->
  Opt.restrictedArea opt = None ->
  Opt.transition opt = None ->
  exists opt' events,
    translate getCellsBBox graph this (Some tx) (Some ty) opt
    = (put_embeddedCells graph (map (moved tx ty) (get_embeds this))
                         (set_position (moved_point tx ty (get_position this)) this),
       opt', events).
Proof.
  intros Hnz Hra Htr.
  rewrite (translate_set _ _ _ _ _ _ Hnz Htr). cbv zeta.
  rewrite restricted_none by (destruct opt; exact Hra).
  unfold translate_embedded, getEmbeddedCells. destruct graph.
  - destruct (invoke_map (fun c => translate getCellsBBox true c (Some tx) (Some ty))
                (moved tx ty)
                (fun o => Opt.restrictedArea o = None /\ Opt.transition o = None)
                (get_embeds this))
      with (opt := recorded tx ty (initiated this opt))
      as (opt' & events & -> & _).
    + apply Forall_forall. intros c _. apply translate_moves, Hnz.
    + destruct opt; split; [exact Hra | exact Htr].
    + eexists _, _. reflexivity.
  - simpl. eexists _, _. reflexivity.
Qed.





(** The position that a translation that is not zero hands to the store:
    it is written, or it is the target of the transition. *)
Lemma translate_target graph this tx ty opt :
  tx <> 0 \/ ty <> 0 ->
  let '(dx, dy) := restricted getCellsBBox graph this tx ty (initiated this opt) in
  let '(this', _, events) := translate getCellsBBox graph this (Some tx) (Some ty) opt in
  match Opt.transition opt with
  | Some tr =>
      exists rest,
        events = StartTransition (id this) "position"
                   (moved_point dx dy (get_position this)) (transitionParams tr) :: rest
  | None => get_position this' = moved_point dx dy (get_position this)
  end.
Proof.
  intros Hnz. destruct (restricted _ _ _ _ _ _) as [dx dy] eqn:Hres.
  destruct (Opt.transition opt) as [tr|] eqn:Htr.
  - rewrite (translate_transition _ _ _ _ _ _ _ Hnz Htr). cbv zeta. rewrite Hres.
    destruct (translate_embedded _ _ _ _ _ _) as [[cells opt'] events].
    now eexists.
  - rewrite (translate_set _ _ _ _ _ _ Hnz Htr). cbv zeta. rewrite Hres.
    destruct (translate_embedded _ _ _ _ _ _) as [[cells opt'] events].
    rewrite get_position_put. now destruct this.
Qed.

(** The restricted translation brings the position between the bounds. *)
Lemma restricted_clamp graph this tx ty opt ra :
  Opt.restrictedArea opt = Some ra ->
  truthy (Opt.translateBy opt) = false \/ Opt.translateBy opt = Some (id this) ->
  let bbox := getBBox getCellsBBox graph this true in
  let position := get_position this in
  let dx := Point.x position - Rect.x bbox in
  let dy := Point.y position - Rect.y bbox in
  let '(tx', ty') := restricted getCellsBBox graph this tx ty (initiated this opt) in
  moved_point tx' ty' position
  = Point.mk (clamp (Point.x position + tx) (Rect.x ra + dx)
                    (Rect.x ra + Rect.width ra + dx - Rect.width bbox))
             (clamp (Point.y position + ty) (Rect.y ra + dy)
                    (Rect.y ra + Rect.height ra + dy - Rect.height bbox)).
Proof.
  intros Hra Hby. cbv zeta. unfold restricted.
  rewrite (same_string_initiated _ _ Hby).
  replace (Opt.restrictedArea (initiated this opt)) with (Some ra)
    by (destruct opt; symmetry; exact Hra).
  unfold moved_point, clamp. cbn [Point.x Point.y]. f_equal; ring.
Qed.

End Translation.

(** C7.  [translate(0, 0)], and [translate] with one or both arguments
    omitted and the other zero, does nothing: it returns the element as it
    is (position, size, angle and embedded cells), it leaves the options
    object untouched, and it makes no call to the attribute store: no
    change is notified and no batch is started. *)
Theorem translate_nothing :
  forall getCellsBBox graph this tx ty opt,
    or_zero tx = 0 -> or_zero ty = 0 ->
    translate getCellsBBox graph this tx ty opt = (this, opt, []).
Proof. intros. now apply translate_zero. Qed.

Lemma translate_nothing_witness :
  translate unionBBox true box (Some 0) None Opt.empty = (box, Opt.empty, []).
Proof. apply translate_nothing; reflexivity. Defined.

(** C9.  On an element that is not attached to a graph, [getBBox] with
    [deep] returns the rectangle of the element itself, the one that
    [getBBox] without [deep] returns. *)
Theorem getBBox_deep_unattached :
  forall getCellsBBox this,
    getBBox getCellsBBox false this true
    = Rect.mk (Point.x (get_position this)) (Point.y (get_position this))
              (Size.width (get_size this)) (Size.height (get_size this))
    /\ getBBox getCellsBBox false this true = getBBox getCellsBBox false this false.
Proof. intros. split; reflexivity. Qed.

(** C3.  A translation by a delta that is not zero, without a restricted
    area (and without a transition, as in [translate(tx, ty)]), moves the
    position of the element by exactly the delta and the position of every
    cell of its embedded subtree by exactly the same delta; size and angle
    of the element stay. *)
Theorem translate_moves_subtree :
  forall getCellsBBox graph this tx ty opt,
    tx <> 0 \/ ty <> 0 ->
    Opt.restrictedArea opt = None ->
    Opt.transition opt = None ->
    let '(this', _, _) := translate getCellsBBox graph this (Some tx) (Some ty) opt in
    get_position this' = moved_point tx ty (get_position this)
    /\ get_size this' = get_size this
    /\ get_angle this' = get_angle this
    /\ Forall2 (fun d d' => id d' = id d
                            /\ get_position d' = moved_point tx ty (get_position d))
               (subtree graph this) (subtree graph this').
Proof.
  intros bb graph this tx ty opt Hnz Hra Htr.
  destruct (translate_moved bb graph this tx ty opt Hnz Hra Htr)
    as (opt' & events & ->).
  destruct this as [i p s a cs], graph; cbn; repeat split; try constructor.
  unfold subtree. cbn. rewrite flat_map_cells_moved. apply moved_Forall2.
Qed.

Lemma translate_moves_subtree_witness :
  let '(this', _, _) := translate unionBBox true box (Some 10) (Some 0) Opt.empty in
  get_position this' = moved_point 10 0 (get_position box)
  /\ get_size this' = get_size box
  /\ get_angle this' = get_angle box
  /\ Forall2 (fun d d' => id d' = id d
                          /\ get_position d' = moved_point 10 0 (get_position d))
             (subtree true box) (subtree true this').
Proof.
  apply (translate_moves_subtree unionBBox true box 10 0 Opt.empty).
  - left. lra.
  - reflexivity.
  - reflexivity.
Defined.



(** C2, as the code has it.  When [translate(tx, ty, opt)] is called with
    a translation that is not zero, with [opt.restrictedArea] and with
    [opt.translateBy] absent or the id of the element, the position of the
    element becomes, in x,
    [clamp(position.x + tx, ra.x + dx, ra.x + ra.width + dx - bbox.width)]
    with [bbox] the deep bounding box and [dx = position.x - bbox.x], and
    the same in y (the position is written, or it is the target of the
    transition when [opt.transition] is set).  In particular an element at
    (0,0) whose deep bounding box is (0,0,10,10), translated by (20,0) in
    the restricted area (0,0,15,15), ends at (5,0). *)
Theorem translate_restricted :
  forall getCellsBBox graph this,
    (forall tx ty opt ra,
        tx <> 0 \/ ty <> 0 ->
        Opt.restrictedArea opt = Some ra ->
        truthy (Opt.translateBy opt) = false \/ Opt.translateBy opt = Some (id this) ->
        translate_reaches getCellsBBox graph this tx ty opt
                          (clamped_position getCellsBBox graph this tx ty ra))
    /\ (get_position this = Point.mk 0 0 ->
        getBBox getCellsBBox graph this true = Rect.mk 0 0 10 10 ->
        translate_reaches getCellsBBox graph this 20 0
                          (Opt.set_restrictedArea (Some area) Opt.empty)
                          (Point.mk 5 0)).
Proof.
  intros bb graph this.
  assert (General : forall tx ty opt ra,
             tx <> 0 \/ ty <> 0 ->
             Opt.restrictedArea opt = Some ra ->
             truthy (Opt.translateBy opt) = false \/ Opt.translateBy opt = Some (id this) ->
             translate_reaches bb graph this tx ty opt
                               (clamped_position bb graph this tx ty ra)).
  { intros tx ty opt ra Hnz Hra Hby.
    pose proof (translate_target bb graph this tx ty opt Hnz) as Ht.
    pose proof (restricted_clamp bb graph this tx ty opt ra Hra Hby) as Hc.
    cbv zeta in Hc. unfold translate_reaches, clamped_position.
    destruct (restricted _ _ _ _ _ _) as [dx dy]. rewrite <- Hc. exact Ht. }
  split; [exact General|].
  intros Hpos Hbox.
  replace (Point.mk 5 0)
    with (clamped_position bb graph this 20 0 area).
  - apply General; [left; lra | reflexivity | left; reflexivity].
  - unfold clamped_position, clamp, area. rewrite Hpos, Hbox. cbn.
    unfold Rmax, Rmin. f_equal; repeat destruct (Rle_dec _ _); lra.
Qed.

Lemma translate_restricted_witness :
  translate_reaches unionBBox false square 20 0
                    (Opt.set_restrictedArea (Some area) Opt.empty) (Point.mk 5 0).
Proof.
  apply (proj2 (translate_restricted unionBBox false square)); reflexivity.
Defined.

(** C2 as it is stated fails for the translation (0,0): the call returns
    at once, and an element that lies outside the restricted area stays
    where it is. *)
Lemma translate_restricted_counterexample :
  let opt := Opt.set_restrictedArea (Some area) Opt.empty in
  Opt.restrictedArea opt = Some area
  /\ Opt.translateBy opt = None
  /\ ~ translate_reaches unionBBox false outside 0 0 opt
                         (clamped_position unionBBox false outside 0 0 area).
Proof.
  cbv zeta. repeat split. unfold translate_reaches.
  rewrite translate_zero by reflexivity. cbn.
  unfold clamped_position, clamp, area, Rmax, Rmin. cbn.
  intros H. injection H as Hx _. revert Hx.
  repeat destruct (Rle_dec _ _); lra.
Qed.




(** ** Resize with a direction that the table does not know *)

Lemma quadrant_unknown direction absolute angle :
  quadrantOf direction = None -> resizeQuadrant direction absolute angle = None.
Proof. unfold resizeQuadrant. now intros ->. Qed.

(** C6, as the code has it.  When the direction is none of the eight
    recognized values, [resize] takes the unanchored path, overwriting the
    size within its batch, only if the direction is falsy (absent or the
    empty string).  A direction that is truthy selects no quadrant and no
    corner of the bounding box: the call fails with a [TypeError] once the
    batch is started, and the size is not written. *)
Theorem resize_unknown_direction :
  forall getParentCell getCellsBBox graph this width height opt,
    match Opt.direction opt with
    | Some direction => quadrantOf direction = None
    | None => True
    end ->
    if truthy (Opt.direction opt) then
      resize getParentCell getCellsBBox graph this width height opt
      = Throw TypeError opt [StartBatch "resize" (id this)]
    else
      resizes_unanchored getParentCell getCellsBBox graph this width height opt.
Proof.
  intros gp bb graph this width height opt Hdir.
  unfold resizes_unanchored, resize, bind, emit, getOpt.
  destruct (truthy (Opt.direction opt)) eqn:Ht; [|reflexivity].
  destruct (Opt.direction opt) as [direction|]; [|discriminate Ht].
  destruct (resizedSize _ _ _ _) as [w h].
  rewrite (quadrant_unknown _ _ _ Hdir). reflexivity.
Qed.

Lemma resize_unknown_direction_witness :
  resize noParent unionBBox true square 20 10
         (Opt.set_direction (Some "center"%string) Opt.empty)
  = Throw TypeError (Opt.set_direction (Some "center"%string) Opt.empty)
          [StartBatch "resize" (id square)].
Proof.
  apply (resize_unknown_direction noParent unionBBox true square 20 10
           (Opt.set_direction (Some "center"%string) Opt.empty)).
  reflexivity.
Defined.

(** C6 as it is stated fails for a direction such as ["center"]: the call
    does not overwrite the size, it raises an error. *)
Lemma resize_unknown_direction_counterexample :
  let opt := Opt.set_direction (Some "center"%string) Opt.empty in
  quadrantOf "center" = None
  /\ ~ resizes_unanchored noParent unionBBox true square 20 10 opt
  /\ resize noParent unionBBox true square 20 10 opt
     = Throw TypeError opt [StartBatch "resize" "square"%string].
Proof.
  cbv zeta. split; [reflexivity|].
  assert (E : resize noParent unionBBox true square 20 10
                     (Opt.set_direction (Some "center"%string) Opt.empty)
              = Throw TypeError (Opt.set_direction (Some "center"%string) Opt.empty)
                      [StartBatch "resize" "square"%string]).
  { unfold resize, bind, emit, getOpt. cbn [truthy Opt.direction Opt.set_direction
      Opt.empty String.eqb Ascii.eqb Bool.eqb negb].
    destruct (resizedSize _ _ _ _) as [w h].
    rewrite quadrant_unknown by reflexivity. reflexivity. }
  split; [|exact E].
  unfold resizes_unanchored. rewrite E. discriminate.
Qed.

(** ** Angles *)

Lemma normalizeAngle_range (a : R) : 0 <= normalizeAngle a < 360.
Proof.
  unfold normalizeAngle, floor.
  destruct (base_Int_part (a / 360)) as [Hle Hgt].
  replace a with (360 * (a / 360)) at 1 3 by field. lra.
Qed.

Lemma js_rem_360_range (a : R) : -360 < js_rem a 360 < 360.
Proof.
  unfold js_rem, trunc. destruct (Rle_dec 0 (a / 360)) as [Hq | Hq].
  - destruct (base_Int_part (a / 360)) as [Hle Hgt].
    replace a with (360 * (a / 360)) at 1 3 by field. lra.
  - destruct (base_Int_part (- (a / 360))) as [Hle Hgt]. rewrite opp_IZR.
    replace a with (360 * (a / 360)) at 1 3 by field. lra.
Qed.

Lemma trunc_small (r : R) : -1 < r < 1 -> trunc r = 0%Z.
Proof.
  intros [Hlo Hhi]. unfold trunc. destruct (Rle_dec 0 r) as [Hq | Hq].
  - symmetry. apply Int_part_spec. simpl. lra.
  - replace (Int_part (- r)) with 0%Z; [reflexivity|].
    apply Int_part_spec. simpl. lra.
Qed.

(** C4, as the code has it.  [rotate(a, absolute)] without an origin
    writes the angle [a] as it is when [absolute] is set, and otherwise the
    remainder [(angle + a) % 360], which has the sign of its dividend and
    lies strictly between -360 and 360; the angle is not brought into the
    range from 0 to 360 when it is stored.  It is the accessor [angle()]
    that returns the stored angle normalized, at least 0 and less than
    360 (normalizeAngle of the geometry kernel, modelled from the
    spec). *)
Theorem rotate_stores_angle :
  forall getParentCell getCellsBBox graph this a absolute opt,
    exists this',
      rotate getParentCell getCellsBBox graph this a absolute None opt
      = Ok this' opt [SetAttr (id this) (ChangeAngle (get_angle this')) opt]
      /\ get_angle this' = (if absolute then a else js_rem (get_angle this + a) 360)
      /\ (absolute = false -> -360 < get_angle this' < 360)
      /\ 0 <= angle this' < 360.
Proof.
  intros gp bb graph this a absolute opt.
  exists (set_angle (if absolute then a else js_rem (get_angle this + a) 360) this).
  destruct this as [i p s b cs]. cbn.
  split; [reflexivity|]. split; [reflexivity|]. split.
  - intros ->. apply js_rem_360_range.
  - apply normalizeAngle_range.
Qed.

(** C4 as it is stated fails: an absolute angle of 400 is stored as 400,
    and a rotation by -90 from the angle 0 stores -90. *)
Lemma rotate_stores_angle_counterexample :
  ~ stores_normalized noParent unionBBox true square 400 true Opt.empty
  /\ ~ stores_normalized noParent unionBBox true square (-90) false Opt.empty.
Proof.
  unfold stores_normalized. cbn. split.
  - lra.
  - unfold js_rem. rewrite trunc_small by lra. simpl. lra.
Qed.

(** ** Failures *)

Lemma invoke_preserves (f : Element -> Opt.t -> Element * Opt.t * list Event)
      (P : Opt.t -> Prop) (cells : list Element) :
  Forall (fun c => forall opt, P opt -> P (snd (fst (f c opt)))) cells ->
  forall opt, P opt -> P (snd (fst (invoke f cells opt))).
Proof.
  induction 1 as [|c cs Hc _ IH]; intros opt HP; simpl; [exact HP|].
  specialize (Hc opt HP). destruct (f c opt) as [[c' opt1] l1].
  specialize (IH opt1 Hc). destruct (invoke f cs opt1) as [[cs' opt2] l2].
  exact IH.
Qed.

Lemma fails_only_unattached_bind {A B : Type} graph opt (m : M A) (f : A -> M B) :
  fails_only_unattached graph opt (m opt) ->
  (forall a o1, Opt.parentRelative o1 = Opt.parentRelative opt ->
                fails_only_unattached graph o1 (f a o1)) ->
  fails_only_unattached graph opt (bind m f opt).
Proof.
  unfold bind. destruct (m opt) as [a o1 l1 | e o1 l1]; simpl; intros Hm Hf.
  - specialize (Hf a o1 Hm).
    destruct (f a o1) as [b o2 l2 | [] o2 l2]; simpl in *; congruence.
  - exact Hm.
Qed.

Section Failures.

Variable getParentCell : Element -> option Cell.
Variable getCellsBBox : list Element -> Rect.t.

(** [translate] does not touch [opt.parentRelative]. *)
Lemma translate_keeps_parentRelative :
  forall c graph tx ty opt,
    Opt.parentRelative (snd (fst (translate getCellsBBox graph c tx ty opt)))
    = Opt.parentRelative opt.
Proof.
  intros c. induction c as [i q s a cs IH] using Element_ind.
  intros graph tx ty opt. cbn [translate].
  destruct (Reqb (or_zero tx) 0 && Reqb (or_zero ty) 0); [reflexivity|].
  destruct (restricted _ _ _ _ _ _) as [dx dy].
  assert (Hkids : forall o b,
             Opt.parentRelative o = b ->
             Opt.parentRelative
               (snd (fst (invoke (fun c => translate getCellsBBox true c (Some dx) (Some dy))
                                 cs o))) = b).
  { intros o b Ho.
    apply (invoke_preserves _ (fun o => Opt.parentRelative o = b)); [|exact Ho].
    apply Forall_forall. intros c Hc o' Ho'.
    rewrite Forall_forall in IH. now rewrite IH. }
  cbn [get_embeds Opt.transition Opt.set_ty Opt.set_tx Opt.set_translateBy].
  destruct (Opt.transition opt) as [tr|], graph; cbn [invoke].
  - match goal with |- context [invoke ?f cs ?o] =>
        specialize (Hkids o (Opt.parentRelative opt) eq_refl);
        destruct (invoke f cs o) as [[cells opt'] events] end.
    exact Hkids.
  - reflexivity.
  - match goal with |- context [invoke ?f cs ?o] =>
        specialize (Hkids o (Opt.parentRelative opt) eq_refl);
        destruct (invoke f cs o) as [[cells opt'] events] end.
    exact Hkids.
  - reflexivity.
Qed.

Lemma parentPosition_fails graph this opt :
  fails_only_unattached graph opt (parentPosition getParentCell graph this opt).
Proof.
  unfold parentPosition, bind, getOpt, throw, ret.
  destruct (Opt.parentRelative opt) eqn:Hp, graph; simpl; auto.
Qed.

Lemma position_get_fails graph this opt :
  fails_only_unattached graph opt (position_get getParentCell graph this opt).
Proof.
  unfold position_get. apply fails_only_unattached_bind.
  - apply parentPosition_fails.
  - intros parent o1 _. reflexivity.
Qed.

Lemma position_set_fails graph this x y opt :
  fails_only_unattached graph opt
    (position_set getParentCell getCellsBBox graph this x y opt).
Proof.
  unfold position_set. apply fails_only_unattached_bind.
  - apply parentPosition_fails.
  - intros parent o1 _. unfold bind, getOpt.
    destruct parent as [pp|]; cbn [app]; destruct (Opt.deep o1).
    + pose proof (translate_keeps_parentRelative this graph
                    (Some (x + Point.x pp - Point.x (get_position this)))
                    (Some (y + Point.y pp - Point.y (get_position this))) o1) as K.
      destruct (translate _ _ _ _ _ _) as [[this' o'] events]. exact K.
    + reflexivity.
    + pose proof (translate_keeps_parentRelative this graph
                    (Some (x - Point.x (get_position this)))
                    (Some (y - Point.y (get_position this))) o1) as K.
      destruct (translate _ _ _ _ _ _) as [[this' o'] events]. exact K.
    + reflexivity.
Qed.

Lemma resize_fails graph this width height opt :
  fails_only_unattached graph opt
    (resize getParentCell getCellsBBox graph this width height opt).
Proof.
  unfold resize. apply fails_only_unattached_bind; [reflexivity|].
  intros _ o1 _. apply fails_only_unattached_bind; [reflexivity|].
  intros o o2 _. destruct (truthy (Opt.direction o)).
  - destruct (resizedSize _ _ _ _) as [w h].
    destruct (fixedPointOf _ _) as [[quadrant fixedPoint]|]; [|exact I].
    apply fails_only_unattached_bind; [reflexivity|].
    intros this1 o3 _. apply fails_only_unattached_bind; [apply position_set_fails|].
    intros this2 o4 _. apply fails_only_unattached_bind; reflexivity.
  - apply fails_only_unattached_bind; [reflexivity|].
    intros this1 o3 _. apply fails_only_unattached_bind; reflexivity.
Qed.

Lemma rotate_fails graph this a absolute origin opt :
  fails_only_unattached graph opt
    (rotate getParentCell getCellsBBox graph this a absolute origin opt).
Proof.
  unfold rotate. destruct origin as [origin|]; [|reflexivity].
  apply fails_only_unattached_bind; [reflexivity|].
  intros _ o1 _. apply fails_only_unattached_bind; [apply position_set_fails|].
  intros this1 o2 _. apply fails_only_unattached_bind; [reflexivity|].
  intros this2 o3 _. apply fails_only_unattached_bind; reflexivity.
Qed.

Lemma scale_fails graph this sx sy origin opt :
  fails_only_unattached graph opt
    (scale getParentCell getCellsBBox graph this sx sy origin opt).
Proof.
  unfold scale. apply fails_only_unattached_bind; [reflexivity|].
  intros _ o1 _. apply fails_only_unattached_bind; [apply position_set_fails|].
  intros this1 o2 _. apply fails_only_unattached_bind; [apply resize_fails|].
  intros this2 o3 _. apply fails_only_unattached_bind; reflexivity.
Qed.

Lemma invoke_throwing_ok (f : Element -> Opt.t -> Result Element) cells :
  Forall (fun c => forall opt, exists c' opt' events, f c opt = Ok c' opt' events) cells ->
  forall opt, exists cells' opt' events,
      invoke_throwing f cells opt = Ok cells' opt' events.
Proof.
  induction 1 as [|c cs Hc _ IH]; intros opt; simpl.
  - now eexists _, _, _.
  - destruct (Hc opt) as (c' & o1 & l1 & ->).
    destruct (IH o1) as (cs' & o2 & l2 & ->). now eexists _, _, _.
Qed.

(** On an attached element [fitEmbeds] returns. *)
Lemma fitEmbeds_attached :
  forall this opt, exists this' opt' events,
      fitEmbeds getCellsBBox true this opt = Ok this' opt' events.
Proof.
  intros this. induction this as [i q s a cs IH] using Element_ind.
  intros opt. cbn [fitEmbeds negb get_embeds].
  destruct cs as [|c cs]; [now eexists _, _, _|].
  destruct (Opt.deep opt).
  - destruct (invoke_throwing_ok (fitEmbeds getCellsBBox true) (c :: cs) IH opt)
      as (cells' & o' & events & ->).
    now eexists _, _, _.
  - now eexists _, _, _.
Qed.

End Failures.

(** C8.  On an element that is not attached to a graph, [position] with
    [opt.parentRelative], as a getter or as a setter, and [fitEmbeds] raise
    the error 'Element must be part of a graph.'  These are the only
    explicit failures: [position], [resize], [rotate] and [scale] raise that
    error only for an unattached element with [opt.parentRelative], and
    [fitEmbeds] returns on an attached element.  On an attached element
    without embedded cells [fitEmbeds] does nothing. *)
Theorem unattached_failures :
  forall getParentCell getCellsBBox this opt,
    (Opt.parentRelative opt = true ->
     position_get getParentCell false this opt
     = Throw ElementMustBePartOfGraph opt []
     /\ forall x y,
         position_set getParentCell getCellsBBox false this x y opt
         = Throw ElementMustBePartOfGraph opt [])
    /\ fitEmbeds getCellsBBox false this opt = Throw ElementMustBePartOfGraph opt []
    /\ (forall graph,
          fails_only_unattached graph opt (position_get getParentCell graph this opt))
    /\ (forall graph x y,
          fails_only_unattached graph opt
            (position_set getParentCell getCellsBBox graph this x y opt))
    /\ (forall graph width height,
          fails_only_unattached graph opt
            (resize getParentCell getCellsBBox graph this width height opt))
    /\ (forall graph a absolute origin,
          fails_only_unattached graph opt
            (rotate getParentCell getCellsBBox graph this a absolute origin opt))
    /\ (forall graph sx sy origin,
          fails_only_unattached graph opt
            (scale getParentCell getCellsBBox graph this sx sy origin opt))
    /\ (exists this' opt' events,
          fitEmbeds getCellsBBox true this opt = Ok this' opt' events)
    /\ (get_embeds this = [] ->
        fitEmbeds getCellsBBox true this opt = Ok this opt []).
Proof.
  intros gp bb this opt.
  split; [|split; [|split; [|split; [|split; [|split; [|split; [|split]]]]]]].
  - intros Hp. split; [|intros x y];
      unfold position_get, position_set, parentPosition, bind, getOpt, throw;
      rewrite Hp; reflexivity.
  - now destruct this.
  - intros graph. apply position_get_fails.
  - intros graph x y. apply position_set_fails.
  - intros graph width height. apply resize_fails.
  - intros graph a absolute origin. apply rotate_fails.
  - intros graph sx sy origin. apply scale_fails.
  - apply fitEmbeds_attached.
  - destruct this as [i q s a cs]. cbn. now intros ->.
Qed.

Lemma unattached_failures_witness :
  (position_get noParent false square (Opt.set_parentRelative true Opt.empty)
   = Throw ElementMustBePartOfGraph (Opt.set_parentRelative true Opt.empty) []
   /\ forall x y,
       position_set noParent unionBBox false square x y
                    (Opt.set_parentRelative true Opt.empty)
       = Throw ElementMustBePartOfGraph (Opt.set_parentRelative true Opt.empty) [])
  /\ fitEmbeds unionBBox true square Opt.empty = Ok square Opt.empty [].
Proof.
  pose proof (unattached_failures noParent unionBBox square
                (Opt.set_parentRelative true Opt.empty)) as [Hpos _].
  pose proof (unattached_failures noParent unionBBox square Opt.empty)
    as (_ & _ & _ & _ & _ & _ & _ & _ & Hfit).
  split; [apply Hpos | apply Hfit]; reflexivity.
Defined.

(** ** Resize with an anchor *)

Lemma cos_sub_turns (x : R) (k : Z) : cos (x - 2 * IZR k * PI) = cos x.
Proof.
  destruct (Z_le_gt_dec 0 k) as [Hk | Hk].
  - rewrite <- (cos_period (x - 2 * IZR k * PI) (Z.to_nat k)).
    rewrite INR_IZR_INZ, Z2Nat.id by exact Hk. f_equal. ring.
  - rewrite <- (cos_period x (Z.to_nat (- k))).
    rewrite INR_IZR_INZ, Z2Nat.id by lia. rewrite opp_IZR. f_equal. ring.
Qed.

Lemma sin_sub_turns (x : R) (k : Z) : sin (x - 2 * IZR k * PI) = sin x.
Proof.
  destruct (Z_le_gt_dec 0 k) as [Hk | Hk].
  - rewrite <- (sin_period (x - 2 * IZR k * PI) (Z.to_nat k)).
    rewrite INR_IZR_INZ, Z2Nat.id by exact Hk. f_equal. ring.
  - rewrite <- (sin_period x (Z.to_nat (- k))).
    rewrite INR_IZR_INZ, Z2Nat.id by lia. rewrite opp_IZR. f_equal. ring.
Qed.

Lemma toRad_normalizeAngle (a : R) :
  toRad (normalizeAngle a) = toRad a - 2 * IZR (floor (a / 360)) * PI.
Proof. unfold toRad, normalizeAngle. field. Qed.

Lemma cos_toRad_normalizeAngle (a : R) :
  cos (toRad (normalizeAngle a)) = cos (toRad a).
Proof. rewrite toRad_normalizeAngle. apply cos_sub_turns. Qed.

Lemma sin_toRad_normalizeAngle (a : R) :
  sin (toRad (normalizeAngle a)) = sin (toRad a).
Proof. rewrite toRad_normalizeAngle. apply sin_sub_turns. Qed.






Lemma rotate_normalizeAngle (p o : Point.t) (a : R) :
  Point.rotate p o (- normalizeAngle a) = Point.rotate p o (- a).
Proof.
  unfold Point.rotate. rewrite !Ropp_involutive.
  now rewrite cos_toRad_normalizeAngle, sin_toRad_normalizeAngle.
Qed.






Lemma rotate_zero (p o : Point.t) : Point.rotate p o (- 0) = p.
Proof.
  unfold Point.rotate, toRad.
  replace (- - 0 * PI / 180) with 0 by lra.
  rewrite cos_0, sin_0. destruct p as [px py]. cbn. f_equal; ring.
Qed.





(** ** Worked examples *)

(** The calls that the translation of [box], which embeds [leaf], makes to
    the attribute store: the batch of the embedded cell lies within the
    batch of the element, and both changes carry the options with the
    initiator and the translation. *)
Example translate_box_trace :
  let opt := recorded 10 0 (initiated box Opt.empty) in
  translate unionBBox true box (Some 10) (Some 0) Opt.empty
  = (moved 10 0 box, opt,
     [StartBatch "translate" "box";
      SetAttr "box" (ChangePosition (moved_point 10 0 (get_position box))) opt;
      StartBatch "translate" "leaf";
      SetAttr "leaf" (ChangePosition (moved_point 10 0 (get_position leaf))) opt;
      StopBatch "translate" "leaf";
      StopBatch "translate" "box"]).
Proof.
  assert (Hnz : 10 <> 0 \/ 0 <> 0) by (left; lra).
  cbv zeta. rewrite translate_set by (exact Hnz || reflexivity). cbv zeta.
  rewrite restricted_none by reflexivity.
  unfold translate_embedded, getEmbeddedCells, box. cbn [get_embeds invoke].
  rewrite translate_set by (exact Hnz || reflexivity). cbv zeta.
  rewrite restricted_none by reflexivity. reflexivity.
Qed.

(** The example of the specification for [fitEmbeds]: embedded cells whose
    bounding box is (0,0,10,10) and a padding of 2 give the element the
    position (-2,-2) and the size (14,14). *)
Example fitEmbeds_padding getCellsBBox (this : Element) :
  get_embeds this <> [] ->
  getCellsBBox (get_embeds this) = Rect.mk 0 0 10 10 ->
  let opt := Opt.mk false false None None None None None None false (mkSides 2 2 2 2) in
  exists this' events,
    fitEmbeds getCellsBBox true this opt = Ok this' opt events
    /\ get_position this' = Point.mk (-2) (-2)
    /\ get_size this' = Size.mk 14 14.
Proof.
  intros Hne Hbox. destruct this as [i p s a [|c cs]]; [contradiction|].
  cbn in Hbox. cbn. rewrite Hbox. eexists _, _. split; [reflexivity|].
  unfold Rect.moveAndExpand. cbn. split; f_equal; lra.
Qed.

(** * Further properties of the operations *)

(** ** What [translate] keeps *)

Lemma invoke_Forall2 (f : Element -> Opt.t -> Element * Opt.t * list Event)
      (R : Element -> Element -> Prop) (cells : list Element) :
  Forall (fun c => forall opt, R c (fst (fst (f c opt)))) cells ->
  forall opt, Forall2 R cells (fst (fst (invoke f cells opt))).
Proof.
  induction 1 as [|c cs Hc _ IH]; intros opt; simpl; [constructor|].
  specialize (Hc opt). destruct (f c opt) as [[c' opt1] l1].
  specialize (IH opt1). destruct (invoke f cs opt1) as [[cs' opt2] l2].
  now constructor.
Qed.

Lemma Forall2_shape (cells cells' : list Element) :
  Forall2 (fun c c' => shape c' = shape c) cells cells' ->
  map shape cells' = map shape cells.
Proof. induction 1; simpl; congruence. Qed.

Lemma translate_shape getCellsBBox :
  forall c graph tx ty opt,
    shape (fst (fst (translate getCellsBBox graph c tx ty opt))) = shape c.
Proof.
  intros c. induction c as [i q s a cs IH] using Element_ind.
  intros graph tx ty opt. cbn [translate].
  destruct (Reqb (or_zero tx) 0 && Reqb (or_zero ty) 0); [reflexivity|].
  destruct (restricted _ _ _ _ _ _) as [dx dy].
  assert (Hkids : forall o,
             map shape (fst (fst (invoke (fun c => translate getCellsBBox true c
                                                             (Some dx) (Some dy)) cs o)))
             = map shape cs).
  { intros o. apply Forall2_shape, invoke_Forall2.
    rewrite Forall_forall in IH |- *. intros c Hc o'. now apply IH. }
  cbn [get_embeds Opt.transition Opt.set_ty Opt.set_tx Opt.set_translateBy].
  destruct (Opt.transition opt) as [tr|], graph; cbn [invoke];
    try reflexivity;
    match goal with
    | |- context [invoke ?f cs ?o] =>
        specialize (Hkids o); destruct (invoke f cs o) as [[cells opt'] events]
    end;
    cbn in *; now rewrite Hkids.
Qed.

(** X1.  Whatever its arguments and options, [translate] changes nothing
    but positions: the element it leaves has the id, the size and the
    angle it had, and so has every cell of its embedding tree, which keeps
    its form. *)
Theorem translate_changes_positions_only :
  forall getCellsBBox graph this tx ty opt,
    let '(this', _, _) := translate getCellsBBox graph this tx ty opt in
    shape this' = shape this
    /\ get_size this' = get_size this
    /\ get_angle this' = get_angle this
    /\ map id (cells_of this') = map id (cells_of this).
Proof.
  intros bb graph this tx ty opt.
  pose proof (translate_shape bb this graph tx ty opt) as H.
  destruct (translate _ _ _ _ _ _) as [[this' opt'] events]. cbn [fst] in H.
  split; [exact H|].
  assert (Hids : forall e e', shape e' = shape e ->
                              map id (cells_of e') = map id (cells_of e)).
  { intros e. induction e as [i q s a cs IH] using Element_ind.
    intros [i' q' s' a' cs'] E. cbn in E. injection E as -> _ _ Hcs.
    cbn. f_equal. revert cs' Hcs.
    induction IH as [|c cs0 Hc _ IHcs]; intros [|c' cs'] Hcs;
      try discriminate; [reflexivity|].
    cbn in Hcs. injection Hcs as Hc' Hcs'.
    cbn. rewrite !map_app. f_equal; [now apply Hc | now apply IHcs]. }
  destruct this as [i q s a cs], this' as [i' q' s' a' cs'].
  repeat split; try (cbn in H; now injection H).
  now apply Hids.
Qed.

(** ** The batches of [translate] *)

Lemma closes_batches_nil : closes_batches [].
Proof. intros open rest. reflexivity. Qed.

Lemma closes_batches_app (l1 l2 : list Event) :
  closes_batches l1 -> closes_batches l2 -> closes_batches (l1 ++ l2).
Proof.
  intros H1 H2 open rest. now rewrite <- app_assoc, H1, H2.
Qed.

Lemma closes_batches_batch (name cell : string) (l : list Event) :
  closes_batches l ->
  closes_batches (StartBatch name cell :: l ++ [StopBatch name cell]).
Proof.
  intros H open rest. cbn [app well_nested].
  rewrite <- app_assoc, H. cbn [app well_nested].
  now rewrite !String.eqb_refl.
Qed.

Lemma closes_batches_set cell c opt (l : list Event) :
  closes_batches l -> closes_batches (SetAttr cell c opt :: l).
Proof. intros H open rest. cbn [app well_nested]. apply H. Qed.

Lemma closes_batches_transition cell path target params (l : list Event) :
  closes_batches l -> closes_batches (StartTransition cell path target params :: l).
Proof. intros H open rest. cbn [app well_nested]. apply H. Qed.

Lemma invoke_closes_batches (f : Element -> Opt.t -> Element * Opt.t * list Event)
      (cells : list Element) :
  Forall (fun c => forall opt, closes_batches (snd (f c opt))) cells ->
  forall opt, closes_batches (snd (invoke f cells opt)).
Proof.
  induction 1 as [|c cs Hc _ IH]; intros opt; simpl; [apply closes_batches_nil|].
  specialize (Hc opt). destruct (f c opt) as [[c' opt1] l1].
  specialize (IH opt1). destruct (invoke f cs opt1) as [[cs' opt2] l2].
  now apply closes_batches_app.
Qed.

Lemma translate_closes_batches getCellsBBox :
  forall c graph tx ty opt,
    closes_batches (snd (translate getCellsBBox graph c tx ty opt)).
Proof.
  intros c. induction c as [i q s a cs IH] using Element_ind.
  intros graph tx ty opt. cbn [translate].
  destruct (Reqb (or_zero tx) 0 && Reqb (or_zero ty) 0); [apply closes_batches_nil|].
  destruct (restricted _ _ _ _ _ _) as [dx dy].
  assert (Hkids : forall o,
             closes_batches
               (snd (invoke (fun c => translate getCellsBBox true c (Some dx) (Some dy))
                            cs o))).
  { apply invoke_closes_batches. rewrite Forall_forall in IH |- *.
    intros c Hc o'. now apply IH. }
  cbn [get_embeds Opt.transition Opt.set_ty Opt.set_tx Opt.set_translateBy].
  destruct (Opt.transition opt) as [tr|], graph; cbn [invoke];
    try match goal with
      | |- context [invoke ?f cs ?o] =>
          specialize (Hkids o); destruct (invoke f cs o) as [[cells opt'] events]
      end;
    cbn [snd] in *.
  - now apply closes_batches_transition.
  - apply closes_batches_transition, closes_batches_nil.
  - change (closes_batches
              (StartBatch "translate" i
                 :: (SetAttr i (ChangePosition (Point.mk (Point.x q + dx) (Point.y q + dy)))
                             (Opt.set_ty dy (Opt.set_tx dx
                                (Opt.set_translateBy
                                   (or_string (Opt.translateBy opt) i) opt)))
                       :: events)
                 ++ [StopBatch "translate" i])).
    now apply closes_batches_batch, closes_batches_set.
  - apply (closes_batches_batch "translate" i [SetAttr _ _ _]),
      closes_batches_set, closes_batches_nil.
Qed.

(** X2.  The batches of [translate] are well nested: whatever the
    arguments and the options, every batch that the call starts, on the
    element and on the cells embedded in it, is stopped, the innermost
    first, before the call returns. *)
Theorem translate_batches_well_nested :
  forall getCellsBBox graph this tx ty opt,
    well_nested [] (snd (translate getCellsBBox graph this tx ty opt)) = true.
Proof.
  intros bb graph this tx ty opt.
  pose proof (translate_closes_batches bb this graph tx ty opt [] []) as H.
  now rewrite app_nil_r in H.
Qed.

(** ** A translation with a transition writes nothing *)

Lemma invoke_unchanged (f : Element -> Opt.t -> Element * Opt.t * list Event)
      (I : Opt.t -> Prop) (P : Event -> Prop) (cells : list Element) :
  Forall (fun c => forall opt, I opt ->
            fst (fst (f c opt)) = c /\ I (snd (fst (f c opt)))
            /\ Forall P (snd (f c opt))) cells ->
  forall opt, I opt ->
    fst (fst (invoke f cells opt)) = cells /\ I (snd (fst (invoke f cells opt)))
    /\ Forall P (snd (invoke f cells opt)).
Proof.
  induction 1 as [|c cs Hc _ IH]; intros opt HI; simpl; [now repeat split|].
  specialize (Hc opt HI). destruct (f c opt) as [[c' opt1] l1].
  cbn [fst snd] in Hc. destruct Hc as (-> & HI1 & Hl1).
  specialize (IH opt1 HI1). destruct (invoke f cs opt1) as [[cs' opt2] l2].
  cbn [fst snd] in *. destruct IH as (-> & HI2 & Hl2).
  repeat split; [exact HI2 | now apply Forall_app].
Qed.

Lemma translate_transition_writes_nothing getCellsBBox :
  forall c graph tx ty opt,
    Opt.transition opt <> None ->
    fst (fst (translate getCellsBBox graph c tx ty opt)) = c
    /\ Opt.transition (snd (fst (translate getCellsBBox graph c tx ty opt))) <> None
    /\ Forall (fun ev => isStartTransition ev = true)
              (snd (translate getCellsBBox graph c tx ty opt)).
Proof.
  intros c. induction c as [i q s a cs IH] using Element_ind.
  intros graph tx ty opt Htr. cbn [translate].
  destruct (Reqb (or_zero tx) 0 && Reqb (or_zero ty) 0); [now repeat split|].
  destruct (restricted _ _ _ _ _ _) as [dx dy].
  assert (Hkids : forall o, Opt.transition o <> None ->
             let r := invoke (fun c => translate getCellsBBox true c (Some dx) (Some dy))
                             cs o in
             fst (fst r) = cs /\ Opt.transition (snd (fst r)) <> None
             /\ Forall (fun ev => isStartTransition ev = true) (snd r)).
  { intros o Ho.
    apply (invoke_unchanged _ (fun o => Opt.transition o <> None)); [|exact Ho].
    rewrite Forall_forall in IH |- *. intros c Hc o' Ho'. now apply IH. }
  cbn [get_embeds Opt.transition Opt.set_ty Opt.set_tx Opt.set_translateBy].
  destruct (Opt.transition opt) as [tr|]; [|contradiction].
  destruct graph; cbn [invoke].
  - match goal with
    | |- context [invoke ?f cs ?o] =>
        specialize (Hkids o ltac:(discriminate)); cbv zeta in Hkids;
        destruct (invoke f cs o) as [[cells opt'] events]
    end.
    cbn [fst snd] in *. destruct Hkids as (-> & Ho & Hev).
    repeat split; [exact Ho | now constructor].
  - cbn. repeat split; [discriminate | now repeat constructor].
Qed.

(** X3.  When the options carry a transition, [translate] writes nothing,
    whatever else it is given: the element and the cells embedded in it
    are returned as they were, and every call made to the store starts a
    transition; no position is set and no batch is started. *)
Theorem translate_with_transition_writes_nothing :
  forall getCellsBBox graph this tx ty opt,
    Opt.transition opt <> None ->
    let '(this', _, events) := translate getCellsBBox graph this tx ty opt in
    this' = this /\ Forall (fun ev => isStartTransition ev = true) events.
Proof.
  intros bb graph this tx ty opt Htr.
  pose proof (translate_transition_writes_nothing bb this graph tx ty opt Htr) as H.
  destruct (translate _ _ _ _ _ _) as [[this' opt'] events].
  cbn [fst snd] in H. now destruct H as (-> & _ & Hev).
Qed.

Lemma translate_with_transition_writes_nothing_witness :
  let '(this', _, events) :=
    translate unionBBox true box (Some 10) (Some 0)
              (Opt.set_restrictedArea (Some area)
                 (Opt.set_transition (Some TransitionFlag) Opt.empty)) in
  this' = box /\ Forall (fun ev => isStartTransition ev = true) events.
Proof.
  apply (translate_with_transition_writes_nothing unionBBox true box (Some 10) (Some 0)
           (Opt.set_restrictedArea (Some area)
              (Opt.set_transition (Some TransitionFlag) Opt.empty))).
  discriminate.
Defined.

(** ** The restricted area *)

Lemma clamp_between (v lo hi : R) : lo <= v -> v <= hi -> clamp v lo hi = v.
Proof.
  intros Hlo Hhi. unfold clamp, Rmax, Rmin.
  repeat destruct (Rle_dec _ _); lra.
Qed.

Lemma clamp_bounds (v lo hi : R) :
  lo <= clamp v lo hi /\ (lo <= hi -> clamp v lo hi <= hi).
Proof.
  unfold clamp, Rmax, Rmin. repeat destruct (Rle_dec _ _); lra.
Qed.

Lemma translate_reaches_clamped getCellsBBox graph this tx ty opt ra :
  tx <> 0 \/ ty <> 0 ->
  Opt.restrictedArea opt = Some ra ->
  truthy (Opt.translateBy opt) = false \/ Opt.translateBy opt = Some (id this) ->
  translate_reaches getCellsBBox graph this tx ty opt
                    (clamped_position getCellsBBox graph this tx ty ra).
Proof.
  intros Hnz Hra Hby.
  pose proof (translate_target getCellsBBox graph this tx ty opt Hnz) as Ht.
  pose proof (restricted_clamp getCellsBBox graph this tx ty opt ra Hra Hby) as Hc.
  cbv zeta in Hc. unfold translate_reaches, clamped_position.
  destruct (restricted _ _ _ _ _ _) as [dx dy]. rewrite <- Hc. exact Ht.
Qed.

Lemma translate_reaches_unrestricted getCellsBBox graph this tx ty opt :
  tx <> 0 \/ ty <> 0 ->
  restricted getCellsBBox graph this tx ty (initiated this opt) = (tx, ty) ->
  translate_reaches getCellsBBox graph this tx ty opt
                    (moved_point tx ty (get_position this)).
Proof.
  intros Hnz Hres.
  pose proof (translate_target getCellsBBox graph this tx ty opt Hnz) as Ht.
  unfold translate_reaches. now rewrite Hres in Ht.
Qed.

(** X4.  A restricted translation keeps the element and its embedded cells
    within the restricted area: the deep bounding box, moved as the
    element is moved, has its left and top sides within the area, and its
    right and bottom sides too when the box is not wider, respectively not
    higher, than the area.  When the box is larger than the area it is the
    left and the top side that are kept. *)
Theorem translate_stays_in_restricted_area :
  forall getCellsBBox graph this tx ty opt ra,
    tx <> 0 \/ ty <> 0 ->
    Opt.restrictedArea opt = Some ra ->
    truthy (Opt.translateBy opt) = false \/ Opt.translateBy opt = Some (id this) ->
    exists target,
      translate_reaches getCellsBBox graph this tx ty opt target
      /\ let bbox := getBBox getCellsBBox graph this true in
         let dx := Point.x target - Point.x (get_position this) in
         let dy := Point.y target - Point.y (get_position this) in
         left_of_box_within ra bbox dx
         /\ top_of_box_within ra bbox dy
         /\ (Rect.width bbox <= Rect.width ra -> right_of_box_within ra bbox dx)
         /\ (Rect.height bbox <= Rect.height ra -> bottom_of_box_within ra bbox dy).
Proof.
  intros bb graph this tx ty opt ra Hnz Hra Hby.
  exists (clamped_position bb graph this tx ty ra).
  split; [now apply translate_reaches_clamped|].
  unfold clamped_position, left_of_box_within, top_of_box_within,
    right_of_box_within, bottom_of_box_within. cbn [Point.x Point.y].
  set (bbox := getBBox bb graph this true).
  set (p := get_position this).
  destruct (clamp_bounds (Point.x p + tx) (Rect.x ra + (Point.x p - Rect.x bbox))
              (Rect.x ra + Rect.width ra + (Point.x p - Rect.x bbox) - Rect.width bbox))
    as [Hxlo Hxhi].
  destruct (clamp_bounds (Point.y p + ty) (Rect.y ra + (Point.y p - Rect.y bbox))
              (Rect.y ra + Rect.height ra + (Point.y p - Rect.y bbox) - Rect.height bbox))
    as [Hylo Hyhi].
  split; [lra|]. split; [lra|]. split.
  - intros Hfits. assert (H1 := Hxhi ltac:(lra)). lra.
  - intros Hfits. assert (H1 := Hyhi ltac:(lra)). lra.
Qed.

Lemma translate_stays_in_restricted_area_witness :
  exists target,
    translate_reaches unionBBox true box 20 0
                      (Opt.set_restrictedArea (Some area) Opt.empty) target
    /\ let bbox := getBBox unionBBox true box true in
       let dx := Point.x target - Point.x (get_position box) in
       let dy := Point.y target - Point.y (get_position box) in
       left_of_box_within area bbox dx
       /\ top_of_box_within area bbox dy
       /\ (Rect.width bbox <= Rect.width area -> right_of_box_within area bbox dx)
       /\ (Rect.height bbox <= Rect.height area -> bottom_of_box_within area bbox dy).
Proof.
  apply (translate_stays_in_restricted_area unionBBox true box 20 0
           (Opt.set_restrictedArea (Some area) Opt.empty) area).
  - left. lra.
  - reflexivity.
  - left. reflexivity.
Defined.

(** X5.  A translation that leaves the deep bounding box within the
    restricted area is applied as it is requested: the restricted area
    changes nothing. *)
Theorem translate_within_restricted_area :
  forall getCellsBBox graph this tx ty opt ra,
    tx <> 0 \/ ty <> 0 ->
    Opt.restrictedArea opt = Some ra ->
    truthy (Opt.translateBy opt) = false \/ Opt.translateBy opt = Some (id this) ->
    let bbox := getBBox getCellsBBox graph this true in
    left_of_box_within ra bbox tx ->
    right_of_box_within ra bbox tx ->
    top_of_box_within ra bbox ty ->
    bottom_of_box_within ra bbox ty ->
    translate_reaches getCellsBBox graph this tx ty opt
                      (moved_point tx ty (get_position this)).
Proof.
  intros bb graph this tx ty opt ra Hnz Hra Hby bbox Hl Hr Ht Hb.
  unfold left_of_box_within, right_of_box_within, top_of_box_within,
    bottom_of_box_within in *.
  replace (moved_point tx ty (get_position this))
    with (clamped_position bb graph this tx ty ra);
    [now apply translate_reaches_clamped|].
  unfold clamped_position, moved_point. fold bbox.
  rewrite !clamp_between by lra. reflexivity.
Qed.

Lemma translate_within_restricted_area_witness :
  translate_reaches unionBBox false square 3 2
                    (Opt.set_restrictedArea (Some area) Opt.empty)
                    (moved_point 3 2 (get_position square)).
Proof.
  apply (translate_within_restricted_area unionBBox false square 3 2
           (Opt.set_restrictedArea (Some area) Opt.empty) area).
  - left. lra.
  - reflexivity.
  - left. reflexivity.
  - unfold left_of_box_within. cbn. lra.
  - unfold right_of_box_within. cbn. lra.
  - unfold top_of_box_within. cbn. lra.
  - unfold bottom_of_box_within. cbn. lra.
Defined.

(** X6.  The restricted area binds the initiator of a translation only: an
    element that is translated on behalf of another one, whose id the
    options carry in [translateBy], is moved by the whole translation,
    restricted area or not. *)
Theorem translate_on_behalf_is_unrestricted :
  forall getCellsBBox graph this tx ty opt,
    tx <> 0 \/ ty <> 0 ->
    truthy (Opt.translateBy opt) = true ->
    Opt.translateBy opt <> Some (id this) ->
    translate_reaches getCellsBBox graph this tx ty opt
                      (moved_point tx ty (get_position this)).
Proof.
  intros bb graph this tx ty opt Hnz Hby Hother.
  apply translate_reaches_unrestricted; [exact Hnz|].
  rewrite (initiated_truthy _ _ Hby).
  now apply restricted_other, same_string_false.
Qed.

Lemma translate_on_behalf_is_unrestricted_witness :
  translate_reaches unionBBox true leaf 20 0
                    (Opt.set_translateBy (Some "box"%string)
                       (Opt.set_restrictedArea (Some area) Opt.empty))
                    (moved_point 20 0 (get_position leaf)).
Proof.
  apply (translate_on_behalf_is_unrestricted unionBBox true leaf 20 0
           (Opt.set_translateBy (Some "box"%string)
              (Opt.set_restrictedArea (Some area) Opt.empty))).
  - left. lra.
  - reflexivity.
  - discriminate.
Defined.

(** ** Translations compose *)

Lemma moved_point_zero (p : Point.t) : moved_point 0 0 p = p.
Proof. destruct p as [px py]. unfold moved_point. cbn. f_equal; lra. Qed.

Lemma moved_point_moved (a b c d : R) (p : Point.t) :
  moved_point a b (moved_point c d p) = moved_point (c + a) (d + b) p.
Proof. unfold moved_point. cbn. f_equal; lra. Qed.

Lemma moved_zero (e : Element) : moved 0 0 e = e.
Proof.
  induction e as [i p s a cs IH] using Element_ind. cbn.
  rewrite moved_point_zero. f_equal.
  induction IH as [|c cs' Hc _ IHcs]; cbn; congruence.
Qed.

Lemma moved_moved (a b c d : R) (e : Element) :
  moved a b (moved c d e) = moved (c + a) (d + b) e.
Proof.
  induction e as [i p s q cs IH] using Element_ind. cbn.
  rewrite moved_point_moved. f_equal.
  induction IH as [|x cs' Hx _ IHcs]; cbn; congruence.
Qed.

Lemma translated_zero graph (this : Element) : translated graph 0 0 this = this.
Proof.
  unfold translated, put_embeddedCells, set_embeds, set_position.
  destruct this as [i p s a cs], graph; cbn [id get_position get_size get_angle get_embeds];
    rewrite moved_point_zero; [|reflexivity].
  f_equal. rewrite (map_ext _ (fun x => x) moved_zero). apply map_id.
Qed.

Lemma translated_translated graph (a b c d : R) (this : Element) :
  translated graph a b (translated graph c d this)
  = translated graph (c + a) (d + b) this.
Proof.
  unfold translated, put_embeddedCells, set_embeds, set_position.
  destruct this as [i p s q cs], graph; cbn [id get_position get_size get_angle get_embeds];
    rewrite moved_point_moved; [|reflexivity].
  f_equal. rewrite map_map. apply map_ext. intros x. apply moved_moved.
Qed.

(** What [translate] returns when nothing restricts it and no transition is
    asked for. *)
Lemma translate_result getCellsBBox graph this tx ty opt :
  Opt.restrictedArea opt = None ->
  Opt.transition opt = None ->
  fst (fst (translate getCellsBBox graph this (Some tx) (Some ty) opt))
  = translated graph tx ty this.
Proof.
  intros Hra Htr.
  destruct (Req_dec_T tx 0) as [-> | Hx];
    [destruct (Req_dec_T ty 0) as [-> | Hy]|].
  - rewrite translate_zero by reflexivity. symmetry. apply translated_zero.
  - destruct (translate_moved getCellsBBox graph this 0 ty opt) as (o & l & ->); auto.
  - destruct (translate_moved getCellsBBox graph this tx ty opt) as (o & l & ->); auto.
Qed.

(** X7.  Translations without a restricted area and without a transition
    can be undone: [translate(tx, ty)] followed by [translate(-tx, -ty)]
    gives back the element, with the position of every cell of its
    subtree, as it was. *)
Theorem translate_round_trip :
  forall getCellsBBox graph this tx ty opt1 opt2,
    Opt.restrictedArea opt1 = None -> Opt.transition opt1 = None ->
    Opt.restrictedArea opt2 = None -> Opt.transition opt2 = None ->
    let '(this1, _, _) := translate getCellsBBox graph this (Some tx) (Some ty) opt1 in
    let '(this2, _, _) :=
      translate getCellsBBox graph this1 (Some (- tx)) (Some (- ty)) opt2 in
    this2 = this.
Proof.
  intros bb graph this tx ty opt1 opt2 Hra1 Htr1 Hra2 Htr2.
  pose proof (translate_result bb graph this tx ty opt1 Hra1 Htr1) as H1.
  destruct (translate bb graph this _ _ opt1) as [[this1 o1] l1]. cbn [fst] in H1.
  pose proof (translate_result bb graph this1 (- tx) (- ty) opt2 Hra2 Htr2) as H2.
  destruct (translate bb graph this1 _ _ opt2) as [[this2 o2] l2]. cbn [fst] in H2.
  subst. rewrite translated_translated, !Rplus_opp_r. apply translated_zero.
Qed.

Lemma translate_round_trip_witness :
  let '(this1, _, _) := translate unionBBox true box (Some 10) (Some 4) Opt.empty in
  let '(this2, _, _) :=
    translate unionBBox true this1 (Some (- 10)) (Some (- 4)) Opt.empty in
  this2 = box.
Proof.
  apply (translate_round_trip unionBBox true box 10 4 Opt.empty Opt.empty);
    reflexivity.
Defined.

(** X8.  Translations without a restricted area and without a transition
    add up: translating by [(ax, ay)] and then by [(bx, by)] leaves the
    element, and every cell of its subtree, where one translation by
    [(ax + bx, ay + by)] leaves it. *)
Theorem translate_adds_up :
  forall getCellsBBox graph this ax ay bx by_ opt1 opt2 opt3,
    Opt.restrictedArea opt1 = None -> Opt.transition opt1 = None ->
    Opt.restrictedArea opt2 = None -> Opt.transition opt2 = None ->
    Opt.restrictedArea opt3 = None -> Opt.transition opt3 = None ->
    let '(this1, _, _) := translate getCellsBBox graph this (Some ax) (Some ay) opt1 in
    let '(this2, _, _) := translate getCellsBBox graph this1 (Some bx) (Some by_) opt2 in
    let '(this3, _, _) :=
      translate getCellsBBox graph this (Some (ax + bx)) (Some (ay + by_)) opt3 in
    this2 = this3.
Proof.
  intros bb graph this ax ay bx by_ opt1 opt2 opt3 Hra1 Htr1 Hra2 Htr2 Hra3 Htr3.
  pose proof (translate_result bb graph this ax ay opt1 Hra1 Htr1) as H1.
  destruct (translate bb graph this _ _ opt1) as [[this1 o1] l1]. cbn [fst] in H1.
  pose proof (translate_result bb graph this1 bx by_ opt2 Hra2 Htr2) as H2.
  destruct (translate bb graph this1 _ _ opt2) as [[this2 o2] l2]. cbn [fst] in H2.
  pose proof (translate_result bb graph this (ax + bx) (ay + by_) opt3 Hra3 Htr3) as H3.
  destruct (translate bb graph this _ _ opt3) as [[this3 o3] l3]. cbn [fst] in H3.
  subst. apply translated_translated.
Qed.

Lemma translate_adds_up_witness :
  let '(this1, _, _) := translate unionBBox true box (Some 10) (Some 4) Opt.empty in
  let '(this2, _, _) := translate unionBBox true this1 (Some 5) (Some (- 4)) Opt.empty in
  let '(this3, _, _) :=
    translate unionBBox true box (Some (10 + 5)) (Some (4 + - 4)) Opt.empty in
  this2 = this3.
Proof.
  apply (translate_adds_up unionBBox true box 10 4 5 (- 4)
           Opt.empty Opt.empty Opt.empty); reflexivity.
Defined.

(** ** Setting and getting the position *)

Lemma get_position_translated graph tx ty this :
  get_position (translated graph tx ty this) = moved_point tx ty (get_position this).
Proof. unfold translated. rewrite get_position_put. now destruct this. Qed.



(** X10.  With [opt.deep] the setter of [position] is a translation: the
    element comes to lie at [(x, y)] and every cell of its embedded
    subtree is moved by the same difference to the former position.  The
    options carry no restricted area, no transition and no
    [parentRelative]. *)
Theorem position_deep_moves_subtree :
  forall getParentCell getCellsBBox graph this x y opt,
    Opt.deep opt = true ->
    Opt.parentRelative opt = false ->
    Opt.restrictedArea opt = None ->
    Opt.transition opt = None ->
    exists this' opt' events,
      position_set getParentCell getCellsBBox graph this x y opt = Ok this' opt' events
      /\ this' = translated graph (x - Point.x (get_position this))
                            (y - Point.y (get_position this)) this
      /\ get_position this' = Point.mk x y.
Proof.
  intros gp bb graph this x y opt Hdeep Hpr Hra Htr.
  unfold position_set, parentPosition, bind, getOpt, ret.
  rewrite Hpr. cbn [app]. rewrite Hdeep.
  pose proof (translate_result bb graph this (x - Point.x (get_position this))
                (y - Point.y (get_position this)) opt Hra Htr) as H.
  destruct (translate _ _ _ _ _ _) as [[this' opt'] events]. cbn [fst] in H.
  exists this', opt', events. split; [reflexivity|]. split; [exact H|].
  rewrite H, get_position_translated. unfold moved_point. f_equal; lra.
Qed.

Lemma position_deep_moves_subtree_witness :
  exists this' opt' events,
    position_set noParent unionBBox true box 7 8
                 (Opt.mk false true None None None None None None false (mkSides 0 0 0 0))
    = Ok this' opt' events
    /\ this' = translated true (7 - Point.x (get_position box))
                          (8 - Point.y (get_position box)) box
    /\ get_position this' = Point.mk 7 8.
Proof.
  apply (position_deep_moves_subtree noParent unionBBox true box 7 8
           (Opt.mk false true None None None None None None false (mkSides 0 0 0 0)));
    reflexivity.
Defined.

(** ** The size after a resize *)

Lemma position_set_shape getParentCell getCellsBBox graph this x y opt this' opt' events :
  position_set getParentCell getCellsBBox graph this x y opt = Ok this' opt' events ->
  shape this' = shape this.
Proof.
  unfold position_set, parentPosition, bind, getOpt, ret, throw, set.
  destruct (Opt.parentRelative opt), graph; cbn [negb app]; try discriminate;
    destruct (Opt.deep opt);
    try (intros H; injection H as <- _ _; now destruct this);
    match goal with
    | |- context [translate ?bb ?g ?t ?a ?b ?o] =>
        pose proof (translate_shape bb t g a b o) as Hs;
        destruct (translate bb g t a b o) as [[t' o'] l]
    end;
    intros H; injection H as <- _ _; exact Hs.
Qed.

Lemma shape_size (e e' : Element) :
  shape e' = shape e ->
  id e' = id e /\ get_size e' = get_size e /\ get_angle e' = get_angle e.
Proof.
  destruct e, e'. cbn. intros H. injection H as -> -> -> _. now repeat split.
Qed.

Lemma resize_result getParentCell getCellsBBox graph this width height opt
      this' opt' events :
  resize getParentCell getCellsBBox graph this width height opt = Ok this' opt' events ->
  id this' = id this
  /\ get_angle this' = get_angle this
  /\ get_size this'
     = if truthy (Opt.direction opt) then
         let direction := match Opt.direction opt with
                          | Some d => d
                          | None => EmptyString
                          end in
         Size.mk (fst (resizedSize direction (get_size this) width height))
                 (snd (resizedSize direction (get_size this) width height))
       else Size.mk width height.
Proof.
  unfold resize, bind, emit, getOpt, ret, throw, set.
  destruct (truthy (Opt.direction opt)).
  - cbv zeta. destruct (resizedSize _ _ _ _) as [w h].
    destruct (fixedPointOf _ _) as [[quadrant fixedPoint]|]; [|discriminate].
    cbn [app].
    match goal with
    | |- context [position_set ?gp ?bb ?g ?t ?a ?b ?o] =>
        destruct (position_set gp bb g t a b o) as [t' o' l | e o' l] eqn:Hpos;
        [apply position_set_shape, shape_size in Hpos | discriminate]
    end.
    intros H. injection H as <- _ _. destruct this. cbn in *. tauto.
  - cbn [app]. intros H. injection H as <- _ _. now destruct this.
Qed.

(** X11.  After a resize that returns, the element has the size that the
    direction lets through, whatever the options do to its position: the
    requested size without a direction and for the directions of a corner,
    the requested width and the former height for [left] and [right], the
    former width and the requested height for [top] and [bottom].  The id
    and the angle are the same. *)
Theorem resize_sets_size :
  forall getParentCell getCellsBBox graph this width height opt this' opt' events,
    resize getParentCell getCellsBBox graph this width height opt = Ok this' opt' events ->
    id this' = id this
    /\ get_angle this' = get_angle this
    /\ (truthy (Opt.direction opt) = false -> get_size this' = Size.mk width height)
    /\ (Opt.direction opt = Some "left"%string \/ Opt.direction opt = Some "right"%string ->
        get_size this' = Size.mk width (Size.height (get_size this)))
    /\ (Opt.direction opt = Some "top"%string \/ Opt.direction opt = Some "bottom"%string ->
        get_size this' = Size.mk (Size.width (get_size this)) height)
    /\ (Opt.direction opt = Some "top-left"%string
        \/ Opt.direction opt = Some "top-right"%string
        \/ Opt.direction opt = Some "bottom-left"%string
        \/ Opt.direction opt = Some "bottom-right"%string ->
        get_size this' = Size.mk width height).
Proof.
  intros gp bb graph this width height opt this' opt' events H.
  apply resize_result in H. destruct H as (Hid & Hangle & Hsize).
  split; [exact Hid|]. split; [exact Hangle|].
  split; [intros Hd; now rewrite Hd in Hsize|].
  repeat split; intros Hd;
    repeat (destruct Hd as [Hd | Hd]); rewrite Hd in Hsize; exact Hsize.
Qed.

Lemma resize_sets_size_witness :
  exists this' opt' events,
    resize noParent unionBBox true square 20 30
           (Opt.set_direction (Some "left"%string) Opt.empty) = Ok this' opt' events
    /\ get_size this' = Size.mk 20 (Size.height (get_size square)).
Proof.
  destruct (resize noParent unionBBox true square 20 30
              (Opt.set_direction (Some "left"%string) Opt.empty))
    as [this' opt' events | e opt' events] eqn:H.
  - exists this', opt', events. split; [reflexivity|].
    apply (resize_sets_size noParent unionBBox true square 20 30
             (Opt.set_direction (Some "left"%string) Opt.empty) this' opt' events H).
    left. reflexivity.
  - exfalso. revert H. unfold resize, bind, emit, getOpt. cbn. discriminate.
Defined.

(** ** Failures are not undone *)




(** ** A resize to the size the element has *)




(** ** Rotations *)

Lemma floor_minus_Z (r : R) (k : Z) : floor (r - IZR k) = (floor r - k)%Z.
Proof.
  unfold floor. symmetry. apply Int_part_spec.
  destruct (base_Int_part r) as [Hle Hgt]. rewrite minus_IZR. lra.
Qed.

Lemma normalizeAngle_turns (x : R) (k : Z) :
  normalizeAngle (x - 360 * IZR k) = normalizeAngle x.
Proof.
  unfold normalizeAngle.
  replace ((x - 360 * IZR k) / 360) with (x / 360 - IZR k) by field.
  rewrite floor_minus_Z, minus_IZR. ring.
Qed.

Lemma normalizeAngle_js_rem (x b : R) :
  normalizeAngle (js_rem x 360 + b) = normalizeAngle (x + b).
Proof.
  unfold js_rem.
  replace (x - 360 * IZR (trunc (x / 360)) + b)
    with (x + b - 360 * IZR (trunc (x / 360))) by ring.
  apply normalizeAngle_turns.
Qed.

(** X14.  The accessor [angle()] after rotations: an absolute rotation
    makes it the normalized angle that was given, a relative one the
    normalized sum of the former angle and the angle given, although the
    angle is stored as a remainder that may be negative; so two relative
    rotations have the effect of one rotation by the sum of their
    angles, and a rotation by 360 leaves [angle()] as it is. *)
Theorem angle_after_rotate :
  forall getParentCell getCellsBBox graph this a b opt,
    exists this1 this2 events1 events2,
      rotate getParentCell getCellsBBox graph this a false None opt
      = Ok this1 opt events1
      /\ rotate getParentCell getCellsBBox graph this1 b false None opt
         = Ok this2 opt events2
      /\ angle this1 = normalizeAngle (get_angle this + a)
      /\ angle this2 = normalizeAngle (get_angle this + (a + b))
      /\ (a = 360 -> angle this1 = angle this)
      /\ forall this3 events3,
          rotate getParentCell getCellsBBox graph this a true None opt
          = Ok this3 opt events3 ->
          angle this3 = normalizeAngle a.
Proof.
  intros gp bb graph this a b opt. destruct this as [i p s c cs].
  exists (mkElement i p s (js_rem (c + a) 360) cs),
         (mkElement i p s (js_rem (js_rem (c + a) 360 + b) 360) cs).
  eexists _, _.
  unfold angle. cbn. split; [reflexivity|]. split; [reflexivity|].
  split; [|split; [|split]].
  - rewrite <- (Rplus_0_r (js_rem (c + a) 360)), normalizeAngle_js_rem.
    now rewrite Rplus_0_r.
  - rewrite <- (Rplus_0_r (js_rem (js_rem (c + a) 360 + b) 360)).
    rewrite normalizeAngle_js_rem, Rplus_0_r, normalizeAngle_js_rem. f_equal. ring.
  - intros ->.
    rewrite <- (Rplus_0_r (js_rem (c + 360) 360)), normalizeAngle_js_rem.
    replace (c + 360 + 0) with (c - 360 * IZR (-1)) by (simpl; ring).
    apply normalizeAngle_turns.
  - intros this3 events3 H. injection H as <- _. reflexivity.
Qed.

Lemma rotate_center_x (c o : Point.t) (a : R) :
  (Point.x (Point.rotate c o a) - Point.x o) * (Point.x (Point.rotate c o a) - Point.x o)
  + (Point.y (Point.rotate c o a) - Point.y o) * (Point.y (Point.rotate c o a) - Point.y o)
  = (Point.x c - Point.x o) * (Point.x c - Point.x o)
    + (Point.y c - Point.y o) * (Point.y c - Point.y o).
Proof.
  unfold Point.rotate. cbn [Point.x Point.y].
  pose proof (sin2_cos2 (toRad (- a))) as H. unfold Rsqr in H.
  generalize dependent (cos (toRad (- a))).
  generalize dependent (sin (toRad (- a))). intros s c' H.
  transitivity ((s * s + c' * c')
                * ((Point.x c - Point.x o) * (Point.x c - Point.x o)
                   + (Point.y c - Point.y o) * (Point.y c - Point.y o)));
    [ring | rewrite H; ring].
Qed.

(** X15.  [rotate(angle, absolute, origin)] turns the element about the
    origin: the center of its box becomes the former center rotated about
    the origin by the stored angle less the angle given, so that it keeps
    its distance to the origin; the size stays and the angle is stored as
    without an origin.  The options carry no [parentRelative] and no
    [deep]. *)
Theorem rotate_about_origin :
  forall getParentCell getCellsBBox graph this a absolute origin opt,
    Opt.parentRelative opt = false ->
    Opt.deep opt = false ->
    exists this' events,
      rotate getParentCell getCellsBBox graph this a absolute (Some origin) opt
      = Ok this' opt events
      /\ let center := Rect.center (getBBox getCellsBBox graph this false) in
         let center' := Rect.center (getBBox getCellsBBox graph this' false) in
         center' = Point.rotate center origin (get_angle this - a)
         /\ (Point.x center' - Point.x origin) * (Point.x center' - Point.x origin)
            + (Point.y center' - Point.y origin) * (Point.y center' - Point.y origin)
            = (Point.x center - Point.x origin) * (Point.x center - Point.x origin)
              + (Point.y center - Point.y origin) * (Point.y center - Point.y origin)
         /\ get_size this' = get_size this
         /\ get_angle this'
            = (if absolute then a else js_rem (get_angle this + a) 360).
Proof.
  intros gp bb graph this a absolute origin opt Hpr Hdeep.
  unfold rotate, rotate_about_center, position_set, parentPosition,
    bind, emit, getOpt, ret, set.
  rewrite Hpr. cbn [app]. rewrite Hdeep. cbn [app].
  eexists _, _. split; [reflexivity|].
  destruct this as [i [px py] [w h] c cs]. cbv zeta.
  cbn [getBBox andb get_position get_size get_angle apply_change set_position set_angle
       Point.x Point.y Size.width Size.height id get_embeds].
  assert (Hcenter :
            Rect.center
              (Rect.mk
                 (px + (Point.x (Point.rotate (Rect.center (Rect.mk px py w h)) origin (c - a))
                        - w / 2 - px))
                 (py + (Point.y (Point.rotate (Rect.center (Rect.mk px py w h)) origin (c - a))
                        - h / 2 - py)) w h)
            = Point.rotate (Rect.center (Rect.mk px py w h)) origin (c - a)).
  { destruct (Point.rotate _ _ _) as [rx ry]. unfold Rect.center. cbn. f_equal; lra. }
  rewrite Hcenter. split; [reflexivity|].
  split; [apply rotate_center_x|]. now split.
Qed.

Lemma rotate_about_origin_witness :
  exists this' events,
    rotate noParent unionBBox true square 90 true (Some (Point.mk 0 0)) Opt.empty
    = Ok this' Opt.empty events
    /\ let center := Rect.center (getBBox unionBBox true square false) in
       let center' := Rect.center (getBBox unionBBox true this' false) in
       center' = Point.rotate center (Point.mk 0 0) (get_angle square - 90)
       /\ (Point.x center' - 0) * (Point.x center' - 0)
          + (Point.y center' - 0) * (Point.y center' - 0)
          = (Point.x center - 0) * (Point.x center - 0)
            + (Point.y center - 0) * (Point.y center - 0)
       /\ get_size this' = get_size square
       /\ get_angle this' = 90.
Proof.
  apply (rotate_about_origin noParent unionBBox true square 90 true (Point.mk 0 0)
           Opt.empty); reflexivity.
Defined.



(** ** Scaling *)

(** What [scale] returns when the options do not interfere: no
    [parentRelative], no [deep] and no direction. *)
Lemma scale_result getParentCell getCellsBBox graph this sx sy origin opt :
  Opt.parentRelative opt = false ->
  Opt.deep opt = false ->
  truthy (Opt.direction opt) = false ->
  exists events,
    scale getParentCell getCellsBBox graph this sx sy origin opt
    = Ok (mkElement (id this)
                    (Point.scale (get_position this) sx sy origin)
                    (Size.mk (Size.width (get_size this) * sx)
                             (Size.height (get_size this) * sy))
                    (get_angle this) (get_embeds this))
         opt events.
Proof.
  intros Hpr Hdeep Hdir.
  unfold scale, resize, position_set, parentPosition, bind, emit, getOpt, ret, set.
  rewrite Hpr. cbn [app]. rewrite Hdeep. cbn [app]. rewrite Hdir. cbn [app].
  eexists. destruct this as [i [px py] [w h] a cs]. reflexivity.
Qed.

(** X17.  Scalings about one origin multiply: scaling by [(sx, sy)] and
    then by [(tx, ty)] leaves the element with the position and the size
    that one scaling by [(sx * tx, sy * ty)] gives it.  The options carry
    no [parentRelative], no [deep] and no direction. *)
Theorem scale_multiplies :
  forall getParentCell getCellsBBox graph this sx sy tx ty origin opt,
    Opt.parentRelative opt = false ->
    Opt.deep opt = false ->
    truthy (Opt.direction opt) = false ->
    exists this1 this2 events1 events2 events3,
      scale getParentCell getCellsBBox graph this sx sy origin opt = Ok this1 opt events1
      /\ scale getParentCell getCellsBBox graph this1 tx ty origin opt
         = Ok this2 opt events2
      /\ scale getParentCell getCellsBBox graph this (sx * tx) (sy * ty) origin opt
         = Ok this2 opt events3.
Proof.
  intros gp bb graph this sx sy tx ty origin opt Hpr Hdeep Hdir.
  destruct (scale_result gp bb graph this sx sy origin opt Hpr Hdeep Hdir) as [l1 H1].
  destruct (scale_result gp bb graph this (sx * tx) (sy * ty) origin opt Hpr Hdeep Hdir)
    as [l3 H3].
  destruct (scale_result gp bb graph
              (mkElement (id this) (Point.scale (get_position this) sx sy origin)
                         (Size.mk (Size.width (get_size this) * sx)
                                  (Size.height (get_size this) * sy))
                         (get_angle this) (get_embeds this))
              tx ty origin opt Hpr Hdeep Hdir) as [l2 H2].
  do 2 eexists. exists l1, l2, l3.
  split; [exact H1|]. split; [exact H2|]. rewrite H3. f_equal.
  destruct this as [i [px py] [w h] a cs]. cbn. f_equal.
  - unfold Point.scale. destruct origin as [[ox oy]|]; cbn; f_equal; ring.
  - f_equal; ring.
Qed.

Lemma scale_multiplies_witness :
  exists this1 this2 events1 events2 events3,
    scale noParent unionBBox true box 2 3 (Some (Point.mk 1 1)) Opt.empty
    = Ok this1 Opt.empty events1
    /\ scale noParent unionBBox true this1 5 7 (Some (Point.mk 1 1)) Opt.empty
       = Ok this2 Opt.empty events2
    /\ scale noParent unionBBox true box (2 * 5) (3 * 7) (Some (Point.mk 1 1)) Opt.empty
       = Ok this2 Opt.empty events3.
Proof.
  apply (scale_multiplies noParent unionBBox true box 2 3 5 7 (Some (Point.mk 1 1))
           Opt.empty); reflexivity.
Defined.

(** X18.  A scaling by factors that are not zero can be undone: scaling by
    [(sx, sy)] and then by [(1 / sx, 1 / sy)] about the same origin gives
    back the position and the size of the element.  The options carry no
    [parentRelative], no [deep] and no direction. *)
Theorem scale_round_trip :
  forall getParentCell getCellsBBox graph this sx sy origin opt,
    sx <> 0 -> sy <> 0 ->
    Opt.parentRelative opt = false ->
    Opt.deep opt = false ->
    truthy (Opt.direction opt) = false ->
    exists this1 events1 events2,
      scale getParentCell getCellsBBox graph this sx sy origin opt = Ok this1 opt events1
      /\ scale getParentCell getCellsBBox graph this1 (1 / sx) (1 / sy) origin opt
         = Ok this opt events2.
Proof.
  intros gp bb graph this sx sy origin opt Hsx Hsy Hpr Hdeep Hdir.
  destruct (scale_result gp bb graph this sx sy origin opt Hpr Hdeep Hdir) as [l1 H1].
  destruct (scale_result gp bb graph
              (mkElement (id this) (Point.scale (get_position this) sx sy origin)
                         (Size.mk (Size.width (get_size this) * sx)
                                  (Size.height (get_size this) * sy))
                         (get_angle this) (get_embeds this))
              (1 / sx) (1 / sy) origin opt Hpr Hdeep Hdir) as [l2 H2].
  eexists. exists l1, l2.
  split; [exact H1|]. rewrite H2. f_equal.
  destruct this as [i [px py] [w h] a cs]. cbn. f_equal.
  - unfold Point.scale. destruct origin as [[ox oy]|]; cbn; f_equal; now field.
  - f_equal; now field.
Qed.

Lemma scale_round_trip_witness :
  exists this1 events1 events2,
    scale noParent unionBBox true box 2 4 (Some (Point.mk 1 1)) Opt.empty
    = Ok this1 Opt.empty events1
    /\ scale noParent unionBBox true this1 (1 / 2) (1 / 4) (Some (Point.mk 1 1)) Opt.empty
       = Ok box Opt.empty events2.
Proof.
  apply (scale_round_trip noParent unionBBox true box 2 4 (Some (Point.mk 1 1)) Opt.empty);
    try reflexivity; lra.
Defined.

(** ** Fitting the embedded cells *)

Lemma invoke_throwing_fixed (f : Element -> Opt.t -> Result Element) (cells : list Element) :
  Forall (fun c => forall opt, exists c' events events',
              f c opt = Ok c' opt events /\ f c' opt = Ok c' opt events') cells ->
  forall opt, exists cells' events events',
      invoke_throwing f cells opt = Ok cells' opt events
      /\ invoke_throwing f cells' opt = Ok cells' opt events'
      /\ (cells = [] <-> cells' = []).
Proof.
  induction 1 as [|c cs Hc _ IH]; intros opt; simpl.
  - exists [], [], []. now repeat split.
  - destruct (Hc opt) as (c' & l1 & l1' & E1 & E1').
    destruct (IH opt) as (cs' & l2 & l2' & E2 & E2' & _).
    exists (c' :: cs'), (l1 ++ l2), (l1' ++ l2').
    rewrite E1, E2. simpl. rewrite E1', E2'.
    repeat split; discriminate.
Qed.

(** The box of the embedded cells with the padding of the options. *)
Lemma fitEmbeds_fixed getCellsBBox :
  forall this opt, exists this' events events',
      fitEmbeds getCellsBBox true this opt = Ok this' opt events
      /\ fitEmbeds getCellsBBox true this' opt = Ok this' opt events'
      /\ (get_embeds this = [] -> this' = this)
      /\ (get_embeds this <> [] ->
          let bbox := getCellsBBox (get_embeds this') in
          let padding := Opt.padding opt in
          get_position this'
          = Point.mk (Rect.x bbox + - left padding) (Rect.y bbox + - top padding)
          /\ get_size this'
             = Size.mk (Rect.width bbox + (right padding + left padding))
                       (Rect.height bbox + (bottom padding + top padding))).
Proof.
  intros this. induction this as [i q s a cs IH] using Element_ind.
  intros opt. destruct cs as [|c cs].
  - exists (mkElement i q s a []), [], []. cbn.
    split; [reflexivity|]. split; [reflexivity|]. split; [reflexivity|].
    intros H. now contradiction H.
  - cbn [fitEmbeds negb get_embeds].
    assert (Hcells : exists cells events events',
               (if Opt.deep opt
                then invoke_throwing (fitEmbeds getCellsBBox true) (c :: cs) opt
                else Ok (c :: cs) opt []) = Ok cells opt events
               /\ (if Opt.deep opt
                   then invoke_throwing (fitEmbeds getCellsBBox true) cells opt
                   else Ok cells opt []) = Ok cells opt events'
               /\ cells <> []).
    { destruct (Opt.deep opt).
      - destruct (invoke_throwing_fixed (fitEmbeds getCellsBBox true) (c :: cs)) with (opt := opt)
          as (cells & l & l' & E & E' & Hne).
        + rewrite Forall_forall in IH |- *. intros x Hx o.
          destruct (IH x Hx o) as (x' & l & l' & E & E' & _). now exists x', l, l'.
        + exists cells, l, l'. repeat split; auto. intros ->.
          destruct Hne as [_ Hne]. now specialize (Hne eq_refl).
      - exists (c :: cs), [], []. now repeat split. }
    destruct Hcells as (cells & l & l' & E & E' & Hne). rewrite E.
    eexists _, _, _. split; [reflexivity|].
    destruct cells as [|c' cells]; [contradiction|].
    cbn [fitEmbeds negb get_embeds apply_change set_embeds set_size set_position
         id get_position get_size get_angle].
    rewrite E'. split; [reflexivity|]. split; [discriminate|].
    intros _. cbn. split; reflexivity.
Qed.

(** X19.  [fitEmbeds] on an attached element with embedded cells gives the
    element the bounding box of its embedded cells, as they are when it
    returns, widened by the padding of the options on each side: the left
    and top sides lie the left and top padding before those of the box,
    the right and bottom sides the right and bottom padding beyond. *)
Theorem fitEmbeds_pads_the_box :
  forall getCellsBBox this opt,
    get_embeds this <> [] ->
    exists this' events,
      fitEmbeds getCellsBBox true this opt = Ok this' opt events
      /\ let bbox := getCellsBBox (get_embeds this') in
         let box := getBBox getCellsBBox true this' false in
         let padding := Opt.padding opt in
         Rect.x box = Rect.x bbox - left padding
         /\ Rect.y box = Rect.y bbox - top padding
         /\ Rect.x box + Rect.width box = Rect.x bbox + Rect.width bbox + right padding
         /\ Rect.y box + Rect.height box = Rect.y bbox + Rect.height bbox + bottom padding.
Proof.
  intros bb this opt Hne.
  destruct (fitEmbeds_fixed bb this opt) as (this' & l & l' & E & _ & _ & Hbox).
  exists this', l. split; [exact E|].
  destruct (Hbox Hne) as [Hpos Hsize]. cbv zeta.
  unfold getBBox. cbn [andb]. rewrite Hpos, Hsize. cbn. lra.
Qed.

Lemma fitEmbeds_pads_the_box_witness :
  exists this' events,
    fitEmbeds unionBBox true box Opt.empty = Ok this' Opt.empty events
    /\ let bbox := unionBBox (get_embeds this') in
       let box := getBBox unionBBox true this' false in
       let padding := Opt.padding Opt.empty in
       Rect.x box = Rect.x bbox - left padding
       /\ Rect.y box = Rect.y bbox - top padding
       /\ Rect.x box + Rect.width box = Rect.x bbox + Rect.width bbox + right padding
       /\ Rect.y box + Rect.height box = Rect.y bbox + Rect.height bbox + bottom padding.
Proof.
  apply (fitEmbeds_pads_the_box unionBBox box Opt.empty). discriminate.
Defined.

(** X20.  [fitEmbeds] is idempotent on an attached element, with and
    without [opt.deep]: it returns, it leaves the options as they are, and
    a second call on the element it has fitted returns that element
    again.  An element without embedded cells is returned as it is. *)
Theorem fitEmbeds_idempotent :
  forall getCellsBBox this opt,
    exists this' events events',
      fitEmbeds getCellsBBox true this opt = Ok this' opt events
      /\ fitEmbeds getCellsBBox true this' opt = Ok this' opt events'
      /\ (get_embeds this = [] -> this' = this).
Proof.
  intros bb this opt.
  destruct (fitEmbeds_fixed bb this opt) as (this' & l & l' & E & E' & Hnone & _).
  now exists this', l, l'.
Qed.

(** ** Calls that return have closed their batches *)

Lemma position_set_closes getParentCell getCellsBBox graph this x y opt this' opt' events :
  position_set getParentCell getCellsBBox graph this x y opt = Ok this' opt' events ->
  closes_batches events.
Proof.
  unfold position_set, parentPosition, bind, getOpt, ret, throw, set.
  destruct (Opt.parentRelative opt), graph; cbn [negb app]; try discriminate;
    destruct (Opt.deep opt);
    try (intros H; injection H as _ _ <-;
         apply closes_batches_set, closes_batches_nil);
    match goal with
    | |- context [translate ?bb ?g ?t ?a ?b ?o] =>
        pose proof (translate_closes_batches bb t g a b o) as Hs;
        destruct (translate bb g t a b o) as [[t' o'] l]
    end;
    intros H; injection H as _ _ <-; exact Hs.
Qed.

Lemma closes_batches_batch_set (name cell cell' : string) c opt (l : list Event) :
  closes_batches l ->
  closes_batches (StartBatch name cell
                    :: l ++ [SetAttr cell' c opt; StopBatch name cell]).
Proof.
  intros H.
  change [SetAttr cell' c opt; StopBatch name cell]
    with ([SetAttr cell' c opt] ++ [StopBatch name cell]).
  rewrite app_assoc. apply closes_batches_batch, closes_batches_app; [exact H|].
  apply closes_batches_set, closes_batches_nil.
Qed.

Lemma id_apply_change (c : Change) (this : Element) :
  id (apply_change c this) = id this.
Proof. now destruct c, this. Qed.

Lemma position_set_id getParentCell getCellsBBox graph this x y opt this' opt' events :
  position_set getParentCell getCellsBBox graph this x y opt = Ok this' opt' events ->
  id this' = id this.
Proof. intros H. now apply position_set_shape, shape_size in H. Qed.

Lemma resize_closes getParentCell getCellsBBox graph this width height opt
      this' opt' events :
  resize getParentCell getCellsBBox graph this width height opt = Ok this' opt' events ->
  closes_batches events.
Proof.
  unfold resize, bind, emit, getOpt, ret, throw, set.
  destruct (truthy (Opt.direction opt)).
  - cbv zeta. destruct (resizedSize _ _ _ _) as [w h].
    destruct (fixedPointOf _ _) as [[quadrant fixedPoint]|]; [|discriminate].
    cbn [app].
    match goal with
    | |- context [position_set ?gp ?bb ?g ?t ?a ?b ?o] =>
        destruct (position_set gp bb g t a b o) as [t' o' l | e o' l] eqn:Hpos;
        [pose proof (position_set_id _ _ _ _ _ _ _ _ _ _ Hpos) as Hid;
         apply position_set_closes in Hpos | discriminate]
    end.
    intros H. injection H as _ _ <-. cbn [app].
    rewrite Hid, ?id_apply_change.
    apply (closes_batches_batch "resize" (id this) (_ :: l)).
    now apply closes_batches_set.
  - cbn [app]. intros H. injection H as _ _ <-.
    rewrite ?id_apply_change.
    apply (closes_batches_batch "resize" (id this) [_]),
      closes_batches_set, closes_batches_nil.
Qed.

Lemma resize_id getParentCell getCellsBBox graph this width height opt this' opt' events :
  resize getParentCell getCellsBBox graph this width height opt = Ok this' opt' events ->
  id this' = id this.
Proof. intros H. now apply resize_result in H. Qed.

Lemma rotate_closes getParentCell getCellsBBox graph this a absolute origin opt
      this' opt' events :
  rotate getParentCell getCellsBBox graph this a absolute origin opt
  = Ok this' opt' events ->
  closes_batches events.
Proof.
  unfold rotate, rotate_about_center, bind, emit, getOpt, ret, set.
  destruct origin as [origin|].
  - cbn [app].
    match goal with
    | |- context [position_set ?gp ?bb ?g ?t ?x ?y ?o] =>
        destruct (position_set gp bb g t x y o) as [t' o' l | e o' l] eqn:Hpos;
        [pose proof (position_set_id _ _ _ _ _ _ _ _ _ _ Hpos) as Hid;
         apply position_set_closes in Hpos | discriminate]
    end.
    intros H. injection H as _ _ <-. cbn [app].
    rewrite ?id_apply_change, Hid, ?id_apply_change.
    now apply closes_batches_batch_set.
  - intros H. injection H as _ _ <-. apply closes_batches_set, closes_batches_nil.
Qed.

Lemma scale_closes getParentCell getCellsBBox graph this sx sy origin opt
      this' opt' events :
  scale getParentCell getCellsBBox graph this sx sy origin opt = Ok this' opt' events ->
  closes_batches events.
Proof.
  unfold scale, bind, emit, getOpt, ret.
  cbn [app].
  match goal with
  | |- context [position_set ?gp ?bb ?g ?t ?x ?y ?o] =>
      destruct (position_set gp bb g t x y o) as [t' o' l | e o' l] eqn:Hpos;
      [pose proof (position_set_id _ _ _ _ _ _ _ _ _ _ Hpos) as Hid;
       apply position_set_closes in Hpos | discriminate]
  end.
  match goal with
  | |- context [resize ?gp ?bb ?g ?t ?x ?y ?o] =>
      destruct (resize gp bb g t x y o) as [t2 o2 l2 | e o2 l2] eqn:Hres;
      [pose proof (resize_id _ _ _ _ _ _ _ _ _ _ Hres) as Hid2;
       apply resize_closes in Hres | discriminate]
  end.
  intros H. injection H as _ _ <-. cbn [app].
  rewrite Hid2, Hid, app_assoc.
  apply closes_batches_batch, closes_batches_app; assumption.
Qed.

Lemma invoke_throwing_closes (f : Element -> Opt.t -> Result Element) (cells : list Element) :
  Forall (fun c => forall opt c' opt' events,
              f c opt = Ok c' opt' events -> closes_batches events) cells ->
  forall opt cells' opt' events,
    invoke_throwing f cells opt = Ok cells' opt' events -> closes_batches events.
Proof.
  induction 1 as [|c cs Hc _ IH]; intros opt cells' opt' events; simpl.
  - intros H. injection H as _ _ <-. apply closes_batches_nil.
  - destruct (f c opt) as [c1 o1 l1 | e o1 l1] eqn:E1; [|discriminate].
    destruct (invoke_throwing f cs o1) as [cs2 o2 l2 | e o2 l2] eqn:E2; [|discriminate].
    intros H. injection H as _ _ <-.
    apply closes_batches_app; [eapply Hc | eapply IH]; eassumption.
Qed.

Lemma fitEmbeds_closes getCellsBBox :
  forall this graph opt this' opt' events,
    fitEmbeds getCellsBBox graph this opt = Ok this' opt' events ->
    closes_batches events.
Proof.
  intros this. induction this as [i q s a cs IH] using Element_ind.
  intros graph opt this' opt' events. cbn [fitEmbeds get_embeds].
  destruct graph; cbn [negb]; [|discriminate].
  destruct cs as [|c cs].
  - intros H. injection H as _ _ <-. apply closes_batches_nil.
  - assert (Hfit : forall cells o l,
               (if Opt.deep opt
                then invoke_throwing (fitEmbeds getCellsBBox true) (c :: cs) opt
                else Ok (c :: cs) opt []) = Ok cells o l ->
               closes_batches l).
    { destruct (Opt.deep opt).
      - apply invoke_throwing_closes. rewrite Forall_forall in IH |- *.
        intros x Hx o x' o' l. now apply IH.
      - intros cells o l H. injection H as _ _ <-. apply closes_batches_nil. }
    destruct (if Opt.deep opt then _ else _) as [cells o l | e o l]; [|discriminate].
    specialize (Hfit cells o l eq_refl).
    intros H. injection H as _ _ <-. cbn [id].
    now apply closes_batches_batch_set.
Qed.

(** X21.  A call that returns has closed its batches: the events of
    [position], [resize], [rotate], [scale] and [fitEmbeds], when they do
    not fail, have their batches well nested, each batch started being
    stopped by the call that started it, the innermost first. *)
Theorem returned_calls_close_their_batches :
  forall getParentCell getCellsBBox graph this opt this' opt' events,
    ((exists x y,
         position_set getParentCell getCellsBBox graph this x y opt = Ok this' opt' events)
     \/ (exists width height,
            resize getParentCell getCellsBBox graph this width height opt
            = Ok this' opt' events)
     \/ (exists a absolute origin,
            rotate getParentCell getCellsBBox graph this a absolute origin opt
            = Ok this' opt' events)
     \/ (exists sx sy origin,
            scale getParentCell getCellsBBox graph this sx sy origin opt
            = Ok this' opt' events)
     \/ fitEmbeds getCellsBBox graph this opt = Ok this' opt' events) ->
    well_nested [] events = true.
Proof.
  intros gp bb graph this opt this' opt' events H.
  assert (Hc : closes_batches events).
  { destruct H as [(x & y & H) | [(w & h & H) | [(a & ab & o & H)
                 | [(sx & sy & o & H) | H]]]].
    - eapply position_set_closes; eassumption.
    - eapply resize_closes; eassumption.
    - eapply rotate_closes; eassumption.
    - eapply scale_closes; eassumption.
    - eapply fitEmbeds_closes; eassumption. }
  specialize (Hc [] []). now rewrite app_nil_r in Hc.
Qed.

Lemma returned_calls_close_their_batches_witness :
  well_nested []
    [StartBatch "fit-embeds" "box"%string;
     SetAttr "box"
       (ChangePositionAndSize
          (Point.mk (Rect.x (unionBBox [leaf]) + - 0) (Rect.y (unionBBox [leaf]) + - 0))
          (Size.mk (Rect.width (unionBBox [leaf]) + (0 + 0))
                   (Rect.height (unionBBox [leaf]) + (0 + 0))))
       Opt.empty;
     StopBatch "fit-embeds" "box"%string] = true.
Proof.
  apply (returned_calls_close_their_batches noParent unionBBox true box Opt.empty
           (apply_change
              (ChangePositionAndSize
                 (Point.mk (Rect.x (unionBBox [leaf]) + - 0)
                           (Rect.y (unionBBox [leaf]) + - 0))
                 (Size.mk (Rect.width (unionBBox [leaf]) + (0 + 0))
                          (Rect.height (unionBBox [leaf]) + (0 + 0))))
              box)
           Opt.empty).
  right. right. right. right. reflexivity.
Defined.

(** ** The point of a connected link *)

Lemma rotate_by_angle (p o : Point.t) (this : Element) :
  (if Reqb (angle this) 0 then p else Point.rotate p o (- angle this))
  = Point.rotate p o (- get_angle this).
Proof.
  unfold angle. destruct (Reqb (normalizeAngle (get_angle this)) 0) eqn:E.
  - apply Reqb_true in E.
    rewrite <- (rotate_normalizeAngle p o (get_angle this)), E.
    symmetry. apply rotate_zero.
  - apply rotate_normalizeAngle.
Qed.

(** X22.  The point at which a link meets a port is the place of the port
    turned with the element: the position that the layout gives the port,
    taken from the origin of the box and rotated about the center of the
    box by minus the angle of the element, at every angle (the test of the
    angle only spares a rotation by nothing); it lies as far from the
    center as the port does in the box that is not rotated.  An end that
    names no port meets the element at the center of its box. *)
Theorem port_point_turns_with_element :
  forall getCellsBBox portProp getPortsPositions graph this portId,
    portId <> EmptyString ->
    let bbox := getBBox getCellsBBox graph this false in
    let center := Rect.center bbox in
    let place :=
      Point.offset (getPortsPositions this (portProp this portId) portId)
                   (Rect.x bbox) (Rect.y bbox) in
    let point :=
      getPointFromConnectedLink getCellsBBox portProp getPortsPositions graph this
                                (Some (mkLinkEnd (Some portId))) in
    point = Point.rotate place center (- get_angle this)
    /\ (Point.x point - Point.x center) * (Point.x point - Point.x center)
       + (Point.y point - Point.y center) * (Point.y point - Point.y center)
       = (Point.x place - Point.x center) * (Point.x place - Point.x center)
         + (Point.y place - Point.y center) * (Point.y place - Point.y center)
    /\ getPointFromConnectedLink getCellsBBox portProp getPortsPositions graph this
                                 (Some (mkLinkEnd None)) = center
    /\ getPointFromConnectedLink getCellsBBox portProp getPortsPositions graph this
                                 None = center.
Proof.
  intros bb pp gpp graph this portId Hport. cbv zeta.
  assert (Hpoint :
            getPointFromConnectedLink bb pp gpp graph this (Some (mkLinkEnd (Some portId)))
            = Point.rotate
                (Point.offset (gpp this (pp this portId) portId)
                              (Rect.x (getBBox bb graph this false))
                              (Rect.y (getBBox bb graph this false)))
                (Rect.center (getBBox bb graph this false)) (- get_angle this)).
  { unfold getPointFromConnectedLink. cbn [port truthy].
    replace (String.eqb portId EmptyString) with false
      by (symmetry; now apply String.eqb_neq).
    cbn [negb]. apply rotate_by_angle. }
  rewrite Hpoint. split; [reflexivity|]. split; [apply rotate_center_x|].
  split; reflexivity.
Qed.

Lemma port_point_turns_with_element_witness :
  let gpp := fun (_ : Element) (_ : option string) (_ : string) => Point.mk 10 5 in
  let pp := fun (_ : Element) (_ : string) => @None string in
  let point :=
    getPointFromConnectedLink unionBBox pp gpp true square
                              (Some (mkLinkEnd (Some "out"%string))) in
  point = Point.rotate (Point.offset (Point.mk 10 5) 0 0) (Point.mk (0 + 10 / 2) (0 + 10 / 2))
                       (- 0).
Proof.
  cbv zeta.
  apply (proj1 (port_point_turns_with_element unionBBox
                  (fun _ _ => None) (fun _ _ _ => Point.mk 10 5) true square "out"%string
                  ltac:(discriminate))).
Defined.

(** ** The size given as an object *)

Lemma resizedSize_held (direction : string) (currentSize : Size.t) (width height : R) :
  fst (resizedSize direction currentSize width height)
  = (if same_string (Some direction) "top" || same_string (Some direction) "bottom"
     then Size.width currentSize else width)
  /\ snd (resizedSize direction currentSize width height)
     = (if same_string (Some direction) "left" || same_string (Some direction) "right"
        then Size.height currentSize else height).
Proof.
  unfold resizedSize, same_string.
  destruct (String.eqb direction "left") eqn:El;
    [apply String.eqb_eq in El; subst; now split|].
  destruct (String.eqb direction "right") eqn:Er;
    [apply String.eqb_eq in Er; subst; now split|].
  destruct (String.eqb direction "top") eqn:Et;
    [apply String.eqb_eq in Et; subst; now split|].
  destruct (String.eqb direction "bottom") eqn:Eb;
    [apply String.eqb_eq in Eb; subst; now split|].
  now split.
Qed.

Lemma size_object_result getParentCell getCellsBBox graph this width height opt
      this' opt' events :
  size_object getParentCell getCellsBBox graph this width height opt = Ok this' opt' events ->
  let given (v : option R) (current : R) :=
    match v with Some n => n | None => current end in
  get_size this'
  = Size.mk
      (if same_string (Opt.direction opt) "top" || same_string (Opt.direction opt) "bottom"
       then Size.width (get_size this)
       else given width (Size.width (get_size this)))
      (if same_string (Opt.direction opt) "left" || same_string (Opt.direction opt) "right"
       then Size.height (get_size this)
       else given height (Size.height (get_size this))).
Proof.
  unfold size_object. intros H. apply resize_result in H.
  destruct H as (_ & _ & Hsize). cbv zeta. rewrite Hsize. clear Hsize.
  destruct (Opt.direction opt) as [d|]; [|reflexivity].
  destruct (truthy (Some d)) eqn:Ht.
  - cbv zeta iota beta.
    destruct (resizedSize_held d (get_size this)
                (match width with Some w => w | None => Size.width (get_size this) end)
                (match height with Some h => h | None => Size.height (get_size this) end))
      as [-> ->].
    reflexivity.
  - cbn in Ht. apply Bool.negb_false_iff, String.eqb_eq in Ht. subst d. reflexivity.
Qed.

(** X23.  [size(object, opt)] keeps what the object does not give, whatever
    the options: after a call that returns, a width or a height that the
    object has not is the one the element had, and one that the object has
    is set unless the direction holds that dimension ([top] and [bottom]
    hold the width, [left] and [right] the height), in which case it is
    left as it was, so that [size({ width: w }, { direction: 'top' })]
    changes neither dimension.  [size()] reads that size; the id and the
    angle are the same. *)
Theorem size_object_keeps_missing :
  forall getParentCell getCellsBBox graph this width height opt this' opt' events,
    size_object getParentCell getCellsBBox graph this width height opt = Ok this' opt' events ->
    let holds_width :=
      same_string (Opt.direction opt) "top" || same_string (Opt.direction opt) "bottom" in
    let holds_height :=
      same_string (Opt.direction opt) "left" || same_string (Opt.direction opt) "right" in
    (width = None -> Size.width (size_get this') = Size.width (get_size this))
    /\ (height = None -> Size.height (size_get this') = Size.height (get_size this))
    /\ (forall w, width = Some w ->
           Size.width (size_get this')
           = if holds_width then Size.width (get_size this) else w)
    /\ (forall h, height = Some h ->
           Size.height (size_get this')
           = if holds_height then Size.height (get_size this) else h)
    /\ id this' = id this
    /\ get_angle this' = get_angle this.
Proof.
  intros gp bb graph this width height opt this' opt' events H. cbv zeta.
  pose proof (size_object_result _ _ _ _ _ _ _ _ _ _ H) as Hsize. cbv zeta in Hsize.
  unfold size_object in H. apply resize_result in H. destruct H as (Hid & Hangle & _).
  unfold size_get. rewrite Hsize. clear Hsize. cbn [Size.width Size.height].
  split; [intros ->; now destruct (_ || _)|].
  split; [intros ->; now destruct (_ || _)|].
  split; [now intros w ->|]. split; [now intros h ->|].
  now split.
Qed.

Lemma size_object_keeps_missing_witness :
  exists this' opt' events,
    size_object noParent unionBBox true square (Some 20) None
                (Opt.set_direction (Some "top"%string) Opt.empty) = Ok this' opt' events
    /\ Size.width (size_get this') = Size.width (get_size square)
    /\ Size.height (size_get this') = Size.height (get_size square).
Proof.
  destruct (size_object noParent unionBBox true square (Some 20) None
              (Opt.set_direction (Some "top"%string) Opt.empty))
    as [this' opt' events | e opt' events] eqn:H.
  - exists this', opt', events. split; [reflexivity|].
    destruct (size_object_keeps_missing noParent unionBBox true square (Some 20) None
                (Opt.set_direction (Some "top"%string) Opt.empty) this' opt' events H)
      as (_ & Hh & Hw & _).
    split; [exact (Hw 20 eq_refl) | exact (Hh eq_refl)].
  - exfalso. revert H. unfold size_object, resize, bind, emit, getOpt. cbn. discriminate.
Defined.
